(** * tbta_missing_concepts_to_word: record parser and sentence locator

    A shallow embedding of [tbta_missing_concepts_to_word.py].

    Text is a list of characters; a character is a code point below 256
    (the Latin-1 range), carried by [ascii].  The character classes below
    ([isspace], [isupper], [isword], [lower_char]) are the ones that
    Python's [str] methods and the [re] module use on that range.

    The three patterns of the script are kept as syntax trees and run by a
    small backtracking matcher that tries alternatives in the order in
    which [re] tries them (leftmost first, greedy before empty, lazy the
    other way round). *)

From Stdlib Require Import Ascii String.
From Stdlib Require Import List Bool Arith PeanoNat Lia Sorted Permutation.
Import ListNotations.

Set Implicit Arguments.

(** ** Characters and strings *)

Module Text.

Definition str := list ascii.

Definition lit (s : string) : str := list_ascii_of_string s.

Definition code (c : ascii) : nat := nat_of_ascii c.

Definition between (lo hi : nat) (c : ascii) : bool :=
  (lo <=? code c) && (code c <=? hi).

(** [str.isspace] and [\s] *)
Definition isspace (c : ascii) : bool :=
  between 9 13 c || between 28 32 c || (code c =? 133) || (code c =? 160).

(** [str.isupper] on one character *)
Definition isupper (c : ascii) : bool :=
  between 65 90 c || between 192 214 c || between 216 222 c.

(** [\w] *)
Definition isword (c : ascii) : bool :=
  between 48 57 c || between 65 90 c || (code c =? 95) || between 97 122 c
  || (code c =? 170) || between 178 179 c || (code c =? 181)
  || between 185 186 c || between 188 190 c || between 192 214 c
  || between 216 246 c || between 248 255 c.

Definition lower_char (c : ascii) : ascii :=
  if isupper c then ascii_of_nat (code c + 32) else c.

(** [str.lower] *)
Definition lower (s : str) : str := map lower_char s.

(** [s[a:b]] for [0 <= a], [0 <= b] *)
Definition slice (s : str) (a b : nat) : str := firstn (b - a) (skipn a s).

Fixpoint startswith (s p : str) : bool :=
  match p, s with
  | [], _ => true
  | c :: p', x :: s' => Ascii.eqb x c && startswith s' p'
  | _ :: _, [] => false
  end.

(** [str.lstrip], [str.rstrip], [str.strip] *)
Fixpoint lstrip (s : str) : str :=
  match s with
  | c :: s' => if isspace c then lstrip s' else s
  | [] => []
  end.

Definition rstrip (s : str) : str := rev (lstrip (rev s)).

Definition strip (s : str) : str := rstrip (lstrip s).

(** [s.index(c, from)]: [None] stands for [ValueError] *)
Fixpoint index_from (c : ascii) (s : str) (from : nat) : option nat :=
  match from, s with
  | S n, _ :: s' => option_map S (index_from c s' n)
  | S _, [] => None
  | 0, x :: s' => if Ascii.eqb x c then Some 0 else option_map S (index_from c s' 0)
  | 0, [] => None
  end.

(** [s.rindex(c)] *)
Fixpoint rindex (c : ascii) (s : str) : option nat :=
  match s with
  | [] => None
  | x :: s' =>
      match rindex c s' with
      | Some i => Some (S i)
      | None => if Ascii.eqb x c then Some 0 else None
      end
  end.

(** Python's order on [str]: lexicographic on code points *)
Fixpoint str_leb (a b : str) : bool :=
  match a, b with
  | [], _ => true
  | _ :: _, [] => false
  | x :: a', y :: b' =>
      if code x <? code y then true
      else if code y <? code x then false
      else str_leb a' b'
  end.

End Text.

Import Text.

(** ** The [re] patterns *)

Module Re.

Inductive regex : Type :=
| Empty
| Lit (c : ascii)
| Class (p : ascii -> bool)
| Seq (r1 r2 : regex)
| Alt (r1 r2 : regex)
| Star (greedy : bool) (r : regex)
| Group (n : nat) (r : regex)
| Bol
| Eol
| WordB.

(** [r+], [r+?], [r?] *)
Definition Plus (greedy : bool) (r : regex) : regex := Seq r (Star greedy r).
Definition Opt (r : regex) : regex := Alt r Empty.

(** a literal string; also what [re.escape] makes of a string *)
Fixpoint lits (s : str) : regex :=
  match s with
  | [] => Empty
  | c :: s' => Seq (Lit c) (lits s')
  end.

(** A point of a match: the position in the subject, the character before
    it, the text from it on, and the groups closed so far (latest first). *)
Record state : Type := mkState {
  pos : nat;
  prev : option ascii;
  rest : str;
  caps : list (nat * (nat * nat))
}.

Definition advance (st : state) (x : ascii) (r : str) : state :=
  mkState (S (pos st)) (Some x) r (caps st).

Definition close_group (n start : nat) (st : state) : state :=
  mkState (pos st) (prev st) (rest st) ((n, (start, pos st)) :: caps st).

Definition orelse (a b : option state) : option state :=
  match a with
  | Some _ => a
  | None => b
  end.

Definition word_opt (c : option ascii) : bool :=
  match c with
  | Some x => isword x
  | None => false
  end.

(** [\b]: exactly one side is a word character *)
Definition at_boundary (st : state) : bool :=
  xorb (word_opt (prev st)) (word_opt (hd_error (rest st))).

(** [$] without MULTILINE: the end, or just before a final newline *)
Definition at_eol (st : state) : bool :=
  match rest st with
  | [] => true
  | [c] => code c =? 10
  | _ => false
  end.

Definition lit_eq (ignorecase : bool) (x c : ascii) : bool :=
  if ignorecase then Ascii.eqb (lower_char x) (lower_char c) else Ascii.eqb x c.

Definition cont : Type := state -> option state.

(** The repetition: [n] bounds the iterations, and an iteration that
    consumes nothing is not repeated. *)
Fixpoint star_loop (body : state -> cont -> option state) (greedy : bool)
    (n : nat) (st : state) (k : cont) : option state :=
  match n with
  | 0 => k st
  | S n' =>
      let again :=
        body st (fun st' =>
          if pos st <? pos st' then star_loop body greedy n' st' k else None) in
      if greedy then orelse again (k st) else orelse (k st) again
  end.

Fixpoint run (ic : bool) (r : regex) (st : state) (k : cont) : option state :=
  match r with
  | Empty => k st
  | Lit c =>
      match rest st with
      | x :: s' => if lit_eq ic x c then k (advance st x s') else None
      | [] => None
      end
  | Class p =>
      match rest st with
      | x :: s' => if p x then k (advance st x s') else None
      | [] => None
      end
  | Seq r1 r2 => run ic r1 st (fun st' => run ic r2 st' k)
  | Alt r1 r2 => orelse (run ic r1 st k) (run ic r2 st k)
  | Star g r1 => star_loop (run ic r1) g (S (length (rest st))) st k
  | Group n r1 => run ic r1 st (fun st' => k (close_group n (pos st) st'))
  | Bol => if pos st =? 0 then k st else None
  | Eol => if at_eol st then k st else None
  | WordB => if at_boundary st then k st else None
  end.

Definition start_of (s : str) : state := mkState 0 None s [].

(** [pattern.match(s)] *)
Definition re_match (ic : bool) (r : regex) (s : str) : option state :=
  run ic r (start_of s) Some.

(** the first match that starts at [st] or to its right *)
Fixpoint search_from (ic : bool) (r : regex) (p : nat) (pv : option ascii)
    (s : str) : option state :=
  match run ic r (mkState p pv s []) Some with
  | Some m => Some m
  | None =>
      match s with
      | [] => None
      | x :: s' => search_from ic r (S p) (Some x) s'
      end
  end.

(** [re.search(pattern, s)] *)
Definition re_search (ic : bool) (r : regex) (s : str) : option state :=
  search_from ic r 0 None s.

(** [m.span(n)] *)
Fixpoint span (n : nat) (cs : list (nat * (nat * nat))) : option (nat * nat) :=
  match cs with
  | [] => None
  | (g, se) :: cs' => if g =? n then Some se else span n cs'
  end.

(** [m[n]]; [None] when the group took no part in the match *)
Definition group_text (s : str) (m : state) (n : nat) : option str :=
  match span n (caps m) with
  | Some (a, b) => Some (slice s a b)
  | None => None
  end.

(** [pattern.findall(s)] for a pattern with one group whose matches are
    never empty: the scan resumes where the last match ended. *)
Fixpoint findall_from (ic : bool) (r : regex) (whole : str) (fuel : nat)
    (p : nat) (pv : option ascii) (s : str) : list str :=
  match fuel with
  | 0 => []
  | S fuel' =>
      match search_from ic r p pv s with
      | None => []
      | Some m =>
          match group_text whole m 1 with
          | Some g => g :: findall_from ic r whole fuel' (pos m) (prev m) (rest m)
          | None => []
          end
      end
  end.

Definition re_findall (ic : bool) (r : regex) (s : str) : list str :=
  findall_from ic r s (S (length s)) 0 None s.

End Re.

Import Re.

(** ** The script *)

Notation "a +++ b" := (Seq a b) (at level 61, right associativity).

Definition is_letter (c : ascii) : bool := between 65 90 c || between 97 122 c.
Definition is_capital (c : ascii) : bool := between 65 90 c.
Definition is_digit (c : ascii) : bool := between 48 57 c.

(** [[.a-zA-Z0-9- ]] *)
Definition is_lemma_char (c : ascii) : bool :=
  (code c =? 46) || is_letter c || is_digit c || (code c =? 45) || (code c =? 32).

(** [.] *)
Definition not_newline (c : ascii) : bool := negb (code c =? 10).

(** [[.?!]] *)
Definition is_terminal (c : ascii) : bool :=
  (code c =? 46) || (code c =? 63) || (code c =? 33).

Definition non_terminal (c : ascii) : bool := negb (is_terminal c).
Definition non_space (c : ascii) : bool := negb (isspace c).

(** the pattern "^Concept \(([a-zA-Z]+)\): ([.a-zA-Z0-9- ]+?-[A-Z])(?:  \'(.+?)\')?$" *)
Definition CONCEPT_REGEX : regex :=
  Bol +++ lits (lit "Concept (") +++ Group 1 (Plus true (Class is_letter))
  +++ lits (lit "): ")
  +++ Group 2 (Plus false (Class is_lemma_char) +++ Lit "-" +++ Class is_capital)
  +++ Opt (lits (lit "  '") +++ Group 3 (Plus false (Class not_newline)) +++ Lit "'")
  +++ Eol.

(** SENTENCE_REGEX: group 1 is "[^.?!]+" then "[.?!]" then "\S*";
    after the group comes " ?" *)
Definition SENTENCE_REGEX : regex :=
  Group 1 (Plus true (Class non_terminal) +++ Class is_terminal
           +++ Star true (Class non_space))
  +++ Opt (Lit " ").

(** the pattern "\b(" + re.escape(word) + "(?:s|es|ed|d)?)\b" *)
Definition word_regex (word : str) : regex :=
  WordB
  +++ Group 1 (lits word
               +++ Opt (Alt (lits (lit "s")) (Alt (lits (lit "es"))
                          (Alt (lits (lit "ed")) (lits (lit "d"))))))
  +++ WordB.

Fixpoint str_eqb (a b : str) : bool :=
  match a, b with
  | [], [] => true
  | x :: a', y :: b' => Ascii.eqb x y && str_eqb a' b'
  | _, _ => false
  end.

Inductive exn : Type := AttributeError | ValueError | KeyError | IndexError.

Inductive result (A : Type) : Type :=
| Ok (a : A)
| Raise (e : exn).

Arguments Ok {A} a.
Arguments Raise {A} e.

Definition bind {A B : Type} (r : result A) (f : A -> result B) : result B :=
  match r with
  | Ok a => f a
  | Raise e => Raise e
  end.

Notation "x <- r ;; k" := (bind r (fun x => k))
  (at level 100, r at next level, right associativity).

Definition or_raise {A : Type} (e : exn) (o : option A) : result A :=
  match o with
  | Some a => Ok a
  | None => Raise e
  end.

Record UnlinkedConcept : Type := mkConcept {
  group : str;
  word : str;
  gloss : str;
  verse : str;
  sample : str
}.

(** [UnlinkedConcept(group, word, gloss)] *)
Definition new_concept (g w gl : str) : UnlinkedConcept := mkConcept g w gl [] [].

Definition set_sample (v : str) (c : UnlinkedConcept) : UnlinkedConcept :=
  mkConcept (group c) (word c) (gloss c) (verse c) v.

Definition set_verse (v : str) (c : UnlinkedConcept) : UnlinkedConcept :=
  mkConcept (group c) (word c) (gloss c) v (sample c).

(** *** [import_concepts] *)

Module Parser.

(** what the function prints *)
Inductive message : Type :=
| UnexpectedFormat (line_num : nat)
| Retrieved (count : nat) (group_name : str).

(** The concepts are objects: [heap] holds them by identity (the index, in
    the order of creation), the variable [concept] and the lists of
    [groups] hold references. *)
Record env : Type := mkEnv {
  heap : list UnlinkedConcept;
  concept : option nat;
  groups : list (str * list nat);
  passage : option str;
  printed : list message
}.

Definition init : env := mkEnv [] None [] None [].

Fixpoint dict_get (k : str) (d : list (str * list nat)) : option (list nat) :=
  match d with
  | [] => None
  | (k', v) :: d' => if str_eqb k' k then Some v else dict_get k d'
  end.

(** [if k not in d: d[k] = []] then [d[k].append(x)] *)
Fixpoint dict_append (k : str) (x : nat) (d : list (str * list nat))
    : list (str * list nat) :=
  match d with
  | [] => [(k, [x])]
  | (k', v) :: d' =>
      if str_eqb k' k then (k', v ++ [x]) :: d' else (k', v) :: dict_append k x d'
  end.

Fixpoint update (i : nat) (f : UnlinkedConcept -> UnlinkedConcept)
    (h : list UnlinkedConcept) : list UnlinkedConcept :=
  match h, i with
  | [], _ => []
  | c :: h', 0 => f c :: h'
  | c :: h', S i' => c :: update i' f h'
  end.

Definition group_key (category w : str) : str :=
  if str_eqb category (lit "Noun") && match w with c :: _ => isupper c | [] => false end
  then lit "Proper Nouns"
  else category ++ lit "s".

(** the three groups of a header line, [m[3] or ''] for the last *)
Definition match_concept (line : str) : option (str * str * str) :=
  match re_match false CONCEPT_REGEX line with
  | None => None
  | Some m =>
      match group_text line m 1, group_text line m 2 with
      | Some g1, Some g2 =>
          Some (g1, g2, match group_text line m 3 with Some g3 => g3 | None => [] end)
      | _, _ => None
      end
  end.

(** one turn of the loop over [enumerate(f)] *)
Definition import_line (line_num : nat) (line : str) (e : env) : result env :=
  if startswith line (lit "Concept") then
    match match_concept line with
    | None =>
        Ok (mkEnv (heap e) (concept e) (groups e) (passage e)
                  (printed e ++ [UnexpectedFormat line_num]))
    | Some (category, w, gl) =>
        Ok (mkEnv (heap e ++ [new_concept (group_key category w) w gl])
                  (Some (length (heap e))) (groups e) (passage e) (printed e))
    end
  else if startswith line (lit "Sample Sentence") then
    match concept e with
    | None => Raise AttributeError
    | Some id =>
        Ok (mkEnv (update id (set_sample (strip (skipn 17 line))) (heap e))
                  (concept e) (groups e) (passage e) (printed e))
    end
  else if startswith line (lit "Verse") then
    match concept e with
    | None => Raise AttributeError
    | Some id =>
        let h := update id (set_verse (strip (skipn 7 line))) (heap e) in
        (* [concept.group]; the reference is to a concept of the heap *)
        match nth_error h id with
        | None => Raise AttributeError
        | Some c =>
            Ok (mkEnv h (concept e) (dict_append (group c) id (groups e))
                      (passage e) (printed e))
        end
    end
  else if startswith line (lit "Current Passage") then
    Ok (mkEnv (heap e) (concept e) (groups e) (Some (strip (skipn 17 line)))
              (printed e))
  else Ok e.

Fixpoint import_loop (line_num : nat) (lines : list str) (e : env) : result env :=
  match lines with
  | [] => Ok e
  | line :: lines' =>
      e' <- import_line line_num line e ;;
      import_loop (S line_num) lines' e'
  end.

Definition report (e : env) : env :=
  mkEnv (heap e) (concept e) (groups e) (passage e)
        (printed e ++ map (fun kv => Retrieved (length (snd kv)) (fst kv)) (groups e)).

(** [import_concepts(params)] on the lines of the input file *)
Definition import_concepts (lines : list str) : result env :=
  e <- import_loop 0 lines init ;; Ok (report e).

End Parser.

(** *** The tables of [export_document] *)

Module Writer.

(** a run of a paragraph: its text and what the script sets on its font *)
Record Run : Type := mkRun {
  text : str;
  bold : bool;
  highlight : bool;
  size : option nat
}.

Definition plain (t : str) : Run := mkRun t false false None.
Definition bold_run (t : str) : Run := mkRun t true false None.
Definition set_size (n : nat) (r : Run) : Run :=
  mkRun (text r) (bold r) (highlight r) (Some n).

(** [word[:word.rindex('-')]] *)
Definition base_form (w : str) : result str :=
  dash_idx <- or_raise ValueError (rindex "-" w) ;;
  Ok (firstn dash_idx w).

(** the reference and the text of a verse *)
Definition split_verse (v : str) : result (str * str) :=
  colon_idx <- or_raise ValueError (index_from ":" v 0) ;;
  verse_start <- or_raise ValueError (index_from " " v colon_idx) ;;
  Ok (firstn verse_start v, skipn (S verse_start) v).

(** [re.search(word_regex, sentence, re.IGNORECASE)] and [m.span(1)];
    group 1 takes part in every match of the pattern *)
Definition find_word (w sentence : str) : option (nat * nat) :=
  match re_search true (word_regex w) sentence with
  | Some m => span 1 (caps m)
  | None => None
  end.

(** the three runs added for a sentence that holds the word *)
Definition excerpt (sentence : str) (start stop : nat) : list Run :=
  [plain (" "%char :: firstn start sentence);
   bold_run (slice sentence start stop);
   plain (skipn stop sentence)].

(** one turn of the loop over the sentences *)
Definition visit (w : str) (acc : list Run * bool) (sentence : str)
    : list Run * bool :=
  match find_word w sentence with
  | Some (start, stop) => (fst acc ++ excerpt sentence start stop, true)
  | None => acc
  end.

Definition sentences (verse_text : str) : list str :=
  re_findall false SENTENCE_REGEX verse_text.

(** the paragraph that [add_verse_sentences] leaves in the cell *)
Definition add_verse_sentences (c : UnlinkedConcept) : result (list Run) :=
  w <- base_form (word c) ;;
  rt <- split_verse (verse c) ;;
  let paragraph := [plain (fst rt)] in
  let visited := fold_left (visit w) (sentences (snd rt)) (paragraph, false) in
  if snd visited
  then Ok (map (set_size 10) (fst visited))
  else Ok [mkRun (verse c) false true (Some 10)].

Definition add_sample_sentences (c : UnlinkedConcept) : list Run :=
  match sample c with
  | [] => []
  | _ :: _ =>
      map (set_size 10)
          [plain (sample c ++ lit " | ");
           mkRun (lit "Translation here.") false true None]
  end.

Record Row : Type := mkRow {
  cell_word : str;
  cell_gloss : str;
  cell_verse : list Run;
  cell_sample : list Run
}.

Record Table : Type := mkTable {
  number : nat;
  caption : str;
  headers : list str;
  rows : list Row
}.

(** [sorted(l, key=lambda c: c.word)]: a stable sort *)
Fixpoint insert_by_word (c : UnlinkedConcept) (l : list UnlinkedConcept)
    : list UnlinkedConcept :=
  match l with
  | [] => [c]
  | d :: l' =>
      if str_leb (word c) (word d) then c :: l else d :: insert_by_word c l'
  end.

Definition sorted_by_word (l : list UnlinkedConcept) : list UnlinkedConcept :=
  fold_right insert_by_word [] l.

Fixpoint lookup (k : str) (d : list (str * list UnlinkedConcept))
    : option (list UnlinkedConcept) :=
  match d with
  | [] => None
  | (k', v) :: d' => if str_eqb k' k then Some v else lookup k d'
  end.

Fixpoint table_rows (l : list UnlinkedConcept) : result (list Row) :=
  match l with
  | [] => Ok []
  | c :: l' =>
      v <- add_verse_sentences c ;;
      rs <- table_rows l' ;;
      Ok (mkRow (word c) (gloss c) v (add_sample_sentences c) :: rs)
  end.

(** the texts that [add_table_headers] writes in the first row *)
Definition add_table_headers (name : str) (proper : bool) : list str :=
  if proper
  then [lit "Nouns: " ++ name; lit "Glosses"; lit "Target Words"]
  else [name; lit "Glosses"; lit "Verses"; lit "Target Sentences";
        lit "Target Words"; lit "Target Glosses"].

(** the first row of a table of [create_table], with the Notes column *)
Definition table_headers (name : str) (add_notes_column : bool) : list str :=
  add_table_headers name false
  ++ (if add_notes_column then [lit "Notes"] else []).

(** [create_names_tables]: the table, if there is one, and the next index *)
Definition create_names_tables (groups : list (str * list UnlinkedConcept))
    : option Table * nat :=
  match lookup (lit "Proper Nouns") groups with
  | None => (None, 1)
  | Some l =>
      (Some (mkTable 1 (lit "Proper Names") (add_table_headers (lit "Proper Names") true)
                     (map (fun c => mkRow (word c) (gloss c) [] []) l)), 2)
  end.

(** [create_table] *)
Definition create_table (group_name : str)
    (groups : list (str * list UnlinkedConcept)) (idx : nat)
    (add_notes_column : bool) : result (option Table * nat) :=
  match lookup group_name groups with
  | None => Ok (None, idx)
  | Some l =>
      rs <- table_rows (sorted_by_word l) ;;
      Ok (Some (mkTable idx group_name (table_headers group_name add_notes_column) rs),
          S idx)
  end.

Definition table_names : list str :=
  [lit "Nouns"; lit "Verbs"; lit "Adjectives"; lit "Adverbs";
   lit "Adpositions"; lit "Conjunctions"; lit "Particles"].

Fixpoint create_tables (names : list str)
    (groups : list (str * list UnlinkedConcept)) (idx : nat)
    (add_notes_column : bool) : result (list Table) :=
  match names with
  | [] => Ok []
  | n :: names' =>
      t <- create_table n groups idx add_notes_column ;;
      ts <- create_tables names' groups (snd t) add_notes_column ;;
      Ok (match fst t with Some tb => tb :: ts | None => ts end)
  end.

(** the objects behind the references of the groups *)
Definition resolve (e : Parser.env) : list (str * list UnlinkedConcept) :=
  map (fun kv =>
         (fst kv,
          flat_map (fun id => match nth_error (Parser.heap e) id with
                              | Some c => [c]
                              | None => []
                              end) (snd kv)))
      (Parser.groups e).

(** the title and the tables that [export_document] writes *)
Definition export_document (e : Parser.env) (add_notes_column : bool)
    : result (str * list Table) :=
  title <- or_raise KeyError (Parser.passage e) ;;
  _ <- match title with [] => Raise IndexError | _ :: _ => Ok tt end ;;
  let groups := resolve e in
  let names := create_names_tables groups in
  ts <- create_tables table_names groups (snd names) add_notes_column ;;
  Ok (title, match fst names with Some t => t :: ts | None => ts end).

End Writer.

(** * Vocabulary of the properties *)

Import Parser Writer.

(** the character before index [i] of [s] *)
Definition before (s : str) (i : nat) : option ascii :=
  match i with
  | 0 => None
  | S j => nth_error s j
  end.

(** [\b] holds at index [i] of [s] *)
Definition boundary (s : str) (i : nat) : bool :=
  xorb (word_opt (before s i)) (word_opt (nth_error s i)).

(** the matcher's state at index [i] of [s], no group closed *)
Definition point (s : str) (i : nat) (cs : list (nat * (nat * nat))) : state :=
  mkState i (before s i) (skipn i s) cs.

(** the literal [w] stands at the head of [t] *)
Fixpoint lit_prefix (ic : bool) (w t : str) : bool :=
  match w, t with
  | [], _ => true
  | c :: w', x :: t' => lit_eq ic x c && lit_prefix ic w' t'
  | _ :: _, [] => false
  end.

(** where a match of [n] characters that starts at [i] ends *)
Definition landing (s : str) (i n : nat) : state :=
  close_group 1 i (point s (i + n) []).

(** the form [base ++ x] stands at index [i] between two word boundaries *)
Definition hit (s base : str) (i : nat) (x : str) : bool :=
  boundary s i && lit_prefix true (base ++ x) (skipn i s)
  && boundary s (i + length (base ++ x)).

(** the first of the endings [xs], in their order, that makes a hit *)
Fixpoint first_hit (s base : str) (i : nat) (xs : list str) : option state :=
  match xs with
  | [] => None
  | x :: xs' =>
      if hit s base i x then Some (landing s i (length (base ++ x)))
      else first_hit s base i xs'
  end.

(** the endings in the order in which the pattern tries them *)
Definition endings : list str := [lit "s"; lit "es"; lit "ed"; lit "d"; []].

(** the form stands in the sentence at index [i], whatever the case of its
    letters, with a word boundary on either side *)
Definition occurs_at (form sentence : str) (i : nat) : Prop :=
  lower (slice sentence i (i + length form)) = lower form
  /\ boundary sentence i = true
  /\ boundary sentence (i + length form) = true.

(** the length of the longest prefix of [t] inside the class [p] *)
Fixpoint count_run (p : ascii -> bool) (t : str) : nat :=
  match t with
  | x :: t' => if p x then S (count_run p t') else 0
  | [] => 0
  end.

(** the continuation tried after [j], [j - 1], ..., [0] characters *)
Fixpoint try_down (s : str) (cs : list (nat * (nat * nat))) (k : cont)
    (i j : nat) : option state :=
  match j with
  | 0 => k (point s i cs)
  | S j' => orelse (k (point s (i + j) cs)) (try_down s cs k i j')
  end.

(** the continuation tried after [0], [1], ..., [j] characters *)
Fixpoint try_up (s : str) (cs : list (nat * (nat * nat))) (k : cont)
    (i j : nat) : option state :=
  match j with
  | 0 => k (point s i cs)
  | S j' => orelse (k (point s i cs)) (try_up s cs k (S i) j')
  end.

(** the length of the sentence that the pattern reads at the head of [t]:
    a run of characters other than . ? !, one of these three, and the
    characters up to the next white space *)
Definition sentence_len (t : str) : option nat :=
  let a := count_run non_terminal t in
  match a, skipn a t with
  | S _, _ :: t2 => Some (a + 1 + count_run non_space t2)
  | _, _ => None
  end.

(** the index after the space, if there is one, at index [e] *)
Definition skip_space (t : str) (e : nat) : nat :=
  match nth_error t e with
  | Some c => if Ascii.eqb c " " then S e else e
  | None => e
  end.

(** the first sentence of [t]: where it starts and how long it is *)
Fixpoint next_sentence (t : str) : option (nat * nat) :=
  match sentence_len t with
  | Some n => Some (0, n)
  | None =>
      match t with
      | [] => None
      | _ :: t' =>
          match next_sentence t' with
          | Some (j, n) => Some (S j, n)
          | None => None
          end
      end
  end.

(** the sentences of [t], one after the other *)
Fixpoint units (fuel : nat) (t : str) : list str :=
  match fuel with
  | 0 => []
  | S f =>
      match next_sentence t with
      | None => []
      | Some (j, n) =>
          firstn n (skipn j t) :: units f (skipn (skip_space t (j + n)) t)
      end
  end.

(** [b] is empty or starts with white space *)
Definition starts_blank (b : str) : Prop :=
  match b with
  | [] => True
  | c :: _ => isspace c = true
  end.

(** a gloss as it stands in a header line *)
Definition quoted (g : option str) : str :=
  match g with
  | Some gl => lit "  '" ++ gl ++ lit "'"
  | None => []
  end.

(** a header line as the pattern describes it *)
Definition header_line (category stem : str) (tag : ascii) (g : option str)
    (eol : str) : str :=
  lit "Concept (" ++ category ++ lit "): " ++ (stem ++ ["-"%char; tag])
  ++ quoted g ++ eol.

(** what follows the lemma in a header: the gloss, if any, and the end *)
Definition TAIL : regex :=
  Opt (lits (lit "  '") +++ Group 3 (Plus false (Class not_newline)) +++ Lit "'")
  +++ Eol.

(** the end of a line of the file *)
Definition nl : str := ["010"%char].




(** the concept [id] is in the list of some group *)
Definition in_groups (id : nat) (e : env) : Prop :=
  exists k ids, In (k, ids) (groups e) /\ In id ids.

(** every reference is to a concept that exists *)
Definition wf (e : env) : Prop :=
  (forall id, concept e = Some id -> id < length (heap e))
  /\ (forall id, in_groups id e -> id < length (heap e)).








(** the order of [sorted]: by lemma *)
Definition word_le (a b : UnlinkedConcept) : Prop :=
  str_leb (word a) (word b) = true.

(** the first column of a table *)
Definition words_of (t : Table) : list str := map cell_word (rows t).

(** concepts and input files of the examples *)
Definition mark_walk : UnlinkedConcept :=
  mkConcept (lit "Verbs") (lit "walk-A") []
            (lit "Mark 1:16 He walked to the market. She ran home.") [].




Definition passage_line : str := lit "Current Passage: Mark 1" ++ nl.

(** a header that does not match, between two records *)
Definition bad_header_input : list str :=
  [lit "Concept (Noun): dog-A" ++ nl;
   lit "Verse: Mark 1:1 The dog ran." ++ nl;
   lit "Concept : badformat" ++ nl;
   lit "Verse: Mark 1:2 The cat sat." ++ nl].

(** proper nouns and common nouns, neither in alphabetical order *)
Definition names_input : list str :=
  [passage_line;
   lit "Concept (Noun): Zion-A" ++ nl;
   lit "Verse: Mark 1:1 They went up to Zion." ++ nl;
   lit "Concept (Noun): Adam-A" ++ nl;
   lit "Verse: Mark 1:2 So Adam slept." ++ nl;
   lit "Concept (Noun): zebra-A" ++ nl;
   lit "Verse: Mark 1:3 A zebra ran." ++ nl;
   lit "Concept (Noun): apple-A" ++ nl;
   lit "Verse: Mark 1:4 He ate an apple." ++ nl].

(** the headers that parse, in the order of the lines *)
Fixpoint parsed_headers (lines : list str) : list (str * str * str) :=
  match lines with
  | [] => []
  | l :: t =>
      match match_concept l with
      | Some h => h :: parsed_headers t
      | None => parsed_headers t
      end
  end.

(** what a header gives a record: grouping key, lemma and gloss *)
Definition header_label (h : str * str * str) : str * str * str :=
  (group_key (fst (fst h)) (snd (fst h)), snd (fst h), snd h).

Definition label (c : UnlinkedConcept) : str * str * str :=
  (group c, word c, gloss c).

(** every record of a group list is under its own grouping key *)
Definition keyed (e : env) : Prop :=
  forall k ids id, In (k, ids) (groups e) -> In id ids ->
                   exists c, nth_error (heap e) id = Some c /\ group c = k.

(** the warnings of the header lines that do not parse *)
Fixpoint malformed (n : nat) (lines : list str) : list message :=
  match lines with
  | [] => []
  | l :: t =>
      (if startswith l (lit "Concept")
       then match match_concept l with
            | Some _ => []
            | None => [UnexpectedFormat n]
            end
       else [])
      ++ malformed (S n) t
  end.

(** the counts that end the output *)
Definition counts (d : list (str * list nat)) : list message :=
  map (fun kv => Retrieved (length (snd kv)) (fst kv)) d.

(** how many references the groups hold *)
Definition total (d : list (str * list nat)) : nat :=
  list_sum (map (fun kv => length (snd kv)) d).

Definition is_verse_line (l : str) : bool := startswith l (lit "Verse").

Definition is_passage_line (l : str) : bool := startswith l (lit "Current Passage").

(** the passage that the lines leave: that of the last passage line *)
Definition last_passage (lines : list str) : option str :=
  fold_left (fun acc l => if is_passage_line l then Some (strip (skipn 17 l)) else acc)
            lines None.

(** the lemma starts with an upper-case letter *)
Definition starts_upper (w : str) : Prop :=
  match w with
  | c :: _ => isupper c = true
  | [] => False
  end.

(** the sentence holds an accepted form of the word *)
Definition found_in (base sentence : str) : bool :=
  match find_word base sentence with
  | Some _ => true
  | None => false
  end.

(** the runs that the loop adds for one sentence *)
Definition piece (base sentence : str) : list Run :=
  match find_word base sentence with
  | Some (start, stop) => excerpt sentence start stop
  | None => []
  end.

(** the text that a paragraph spells *)
Definition run_texts (p : list Run) : str := concat (map text p).

(** gaps and sentences put together in turn, a gap first *)
Fixpoint weave (gaps us : list str) : str :=
  match gaps, us with
  | g :: gaps', u :: us' => g ++ u ++ weave gaps' us'
  | _, _ => []
  end.

(** what may stand before a sentence: the space taken with the sentence
    before, and characters among . ? ! *)
Definition gap_ok (g : str) : Prop :=
  exists sp tm, g = sp ++ tm /\ (sp = [] \/ sp = [" "%char])
                /\ Forall (fun x => is_terminal x = true) tm.

(** a sentence: characters other than . ? !, one of the three, and
    characters that are no white space *)
Definition unit_ok (u : str) : Prop :=
  exists r t s, u = r ++ t :: s /\ r <> []
                /\ Forall (fun x => non_terminal x = true) r
                /\ is_terminal t = true
                /\ Forall (fun x => non_space x = true) s.


(** [k in groups] *)
Definition has_key (d : list (str * list UnlinkedConcept)) (k : str) : bool :=
  match lookup k d with
  | Some _ => true
  | None => false
  end.

(** the caption under which the group [k] is exported *)
Definition display (k : str) : str :=
  if str_eqb k (lit "Proper Nouns") then lit "Proper Names" else k.

(** the groups that [export_document] asks for, in its order *)
Definition exported_keys : list str := lit "Proper Nouns" :: table_names.

(** the number of header cells of a table *)
Definition columns (notes : bool) (t : Table) : nat :=
  if str_eqb (caption t) (lit "Proper Names") then 3
  else if notes then 7 else 6.

(** no group has an empty list *)
Definition filled (d : list (str * list nat)) : Prop :=
  forall k ids, In (k, ids) d -> ids <> [].

(** the order of the lemmas in a table *)
Definition str_le (a b : str) : Prop := str_leb a b = true.




(** no white space at either end *)
Definition clean (s : str) : Prop :=
  match s with c :: _ => isspace c = false | [] => True end
  /\ match rev s with c :: _ => isspace c = false | [] => True end.

(** * Properties *)

(** ** Points of a subject string *)

Section Points.

Variable s : str.

Lemma hd_skipn (i : nat) : hd_error (skipn i s) = nth_error s i.
Proof.
  revert i. induction s as [|x t IH]; intros [|i]; simpl; auto.
Qed.

Lemma skipn_cons_nth (i : nat) (x : ascii) (r : str) :
  skipn i s = x :: r -> nth_error s i = Some x /\ skipn (S i) s = r.
Proof.
  revert i. induction s as [|y t IH]; intros [|i] H; simpl in *; try discriminate.
  - inversion H; auto.
  - apply IH in H. destruct H as [H1 H2]. split; auto.
Qed.

Lemma advance_point (i : nat) cs (x : ascii) (r : str) :
  skipn i s = x :: r -> advance (point s i cs) x r = point s (S i) cs.
Proof.
  intros H. apply skipn_cons_nth in H. destruct H as [H1 H2].
  unfold advance, point; simpl. rewrite H1. f_equal. symmetry; exact H2.
Qed.

Lemma boundary_point (i : nat) cs : at_boundary (point s i cs) = boundary s i.
Proof.
  unfold at_boundary, boundary; simpl. now rewrite hd_skipn.
Qed.

End Points.

(** ** Literals and the search for the word *)

Lemma lit_prefix_app (ic : bool) (a b t : str) :
  lit_prefix ic (a ++ b) t
  = lit_prefix ic a t && lit_prefix ic b (skipn (length a) t).
Proof.
  revert t. induction a as [|c a IH]; intros t; simpl; auto.
  destruct t as [|x t]; simpl; auto.
  rewrite IH. now rewrite andb_assoc.
Qed.

Lemma lit_prefix_lower (w t : str) :
  lit_prefix true w t = true <-> lower (firstn (length w) t) = lower w.
Proof.
  revert t. induction w as [|c w IH]; intros t; simpl.
  - split; auto.
  - destruct t as [|x t]; simpl.
    + split; discriminate.
    + rewrite andb_true_iff, IH. unfold lit_eq. rewrite Ascii.eqb_eq.
      split.
      * intros [H1 H2]. now rewrite H1, H2.
      * intros H. inversion H. auto.
Qed.

Section WordSearch.

Variable s : str.

Lemma run_lits_point (ic : bool) (w : str) (i : nat) cs (k : cont) :
  run ic (lits w) (point s i cs) k
  = if lit_prefix ic w (skipn i s) then k (point s (i + length w) cs) else None.
Proof.
  revert i. induction w as [|c w IH]; intros i; simpl.
  - now rewrite Nat.add_0_r.
  - destruct (skipn i s) as [|x r] eqn:E; auto.
    destruct (lit_eq ic x c); simpl; auto.
    rewrite (advance_point _ _ _ E), IH.
    destruct (skipn_cons_nth _ _ E) as [_ E2]. rewrite E2.
    now rewrite Nat.add_succ_r.
Qed.

Lemma boundary_close (n a j : nat) cs :
  at_boundary (close_group n a (point s j cs)) = boundary s j.
Proof.
  unfold at_boundary, close_group, boundary; simpl. now rewrite hd_skipn.
Qed.

Lemma run_word_regex (base : str) (i : nat) :
  run true (word_regex base) (point s i []) Some = first_hit s base i endings.
Proof.
  unfold word_regex, endings, first_hit, hit, Opt.
  cbn [run]. rewrite boundary_point.
  destruct (boundary s i); cbn [andb]; [|reflexivity].
  rewrite run_lits_point.
  rewrite !lit_prefix_app.
  destruct (lit_prefix true base (skipn i s)); cbn [andb]; [|reflexivity].
  cbn [run].
  rewrite !run_lits_point, !skipn_skipn.
  rewrite (Nat.add_comm (length base) i).
  rewrite !boundary_close.
  unfold landing. change (pos (point s i [])) with i.
  rewrite !length_app, !Nat.add_assoc.
  change (length (@nil ascii)) with 0. rewrite !Nat.add_0_r.
  change (lit_prefix true [] (skipn (i + length base) s)) with true.
  repeat match goal with
  | |- context [lit_prefix true ?w ?t] => destruct (lit_prefix true w t)
  | |- context [boundary s ?j] => destruct (boundary s j)
  end; reflexivity.
Qed.

End WordSearch.

(** ** [re.search]: the leftmost index at which the pattern matches *)

Section Search.

Variables (ic : bool) (r : regex) (s : str).

Lemma search_from_sound (t : str) (i : nat) (m : state) :
  skipn i s = t -> i <= length s ->
  search_from ic r i (before s i) t = Some m ->
  exists j, i <= j <= length s /\ run ic r (point s j []) Some = Some m.
Proof.
  revert i. induction t as [|x t IH]; intros i E Hi H; simpl in H.
  - destruct (run ic r _ Some) eqn:R; [|discriminate].
    exists i. split; [lia|]. unfold point. rewrite E. congruence.
  - destruct (run ic r _ Some) eqn:R.
    + exists i. split; [lia|]. unfold point. rewrite E. congruence.
    + destruct (skipn_cons_nth _ _ E) as [E1 E2].
      assert (Hlt : i < length s) by (apply nth_error_Some; congruence).
      change (Some x) with (Some x) in H. rewrite <- E1 in H.
      change (nth_error s i) with (before s (S i)) in H.
      destruct (IH (S i) E2 Hlt H) as [j [Hj Hr]].
      exists j. split; [lia|assumption].
Qed.


End Search.

(** ** The word in a sentence *)


Lemma hit_occurs (s base x : str) (i : nat) :
  hit s base i x = true <-> occurs_at (base ++ x) s i.
Proof.
  unfold hit, occurs_at, slice.
  rewrite !andb_true_iff, lit_prefix_lower.
  replace (i + length (base ++ x) - i) with (length (base ++ x)) by lia.
  tauto.
Qed.

Lemma first_hit_sound (s base : str) (i : nat) (xs : list str) (m : state) :
  first_hit s base i xs = Some m ->
  exists x, In x xs /\ hit s base i x = true
            /\ m = landing s i (length (base ++ x)).
Proof.
  induction xs as [|x xs IH]; simpl; [discriminate|].
  destruct (hit s base i x) eqn:H; intros E.
  - exists x. inversion E. auto.
  - destruct (IH E) as [y [Hy H']]. exists y. auto.
Qed.


Lemma find_word_sound (base sentence : str) (start stop : nat) :
  find_word base sentence = Some (start, stop) ->
  exists x, In x endings /\ occurs_at (base ++ x) sentence start
            /\ stop = start + length (base ++ x).
Proof.
  unfold find_word, re_search. intros H.
  destruct (search_from _ _ _ _ _) as [m|] eqn:E; [|discriminate].
  apply (search_from_sound true (word_regex base) sentence (i := 0)) in E;
    [|reflexivity|lia].
  destruct E as [j [_ R]]. rewrite run_word_regex in R.
  apply first_hit_sound in R. destruct R as [x [Hx [Hh ->]]].
  simpl in H. inversion H; subst.
  exists x. rewrite <- hit_occurs. auto.
Qed.








(** ** The sentence locator *)






(** ** Repetition of a character class *)

Lemma orelse_assoc (a b c : option state) :
  orelse (orelse a b) c = orelse a (orelse b c).
Proof. now destruct a. Qed.

Section Repetition.

Variables (ic : bool) (p : ascii -> bool) (s : str).
Variable cs : list (nat * (nat * nat)).
Variable k : cont.

Lemma try_down_shift (i j : nat) :
  orelse (try_down s cs k (S i) j) (k (point s i cs)) = try_down s cs k i (S j).
Proof.
  induction j as [|j IH].
  - simpl. now rewrite Nat.add_1_r.
  - cbn [try_down] in *. rewrite orelse_assoc, IH.
    now replace (S i + S j) with (i + S (S j)) by lia.
Qed.

Lemma star_greedy (n i : nat) :
  length s - i < n ->
  star_loop (run ic (Class p)) true n (point s i cs) k
  = try_down s cs k i (count_run p (skipn i s)).
Proof.
  revert i. induction n as [|n IH]; intros i Hn; [lia|].
  cbn [star_loop run]. change (rest (point s i cs)) with (skipn i s).
  destruct (skipn i s) as [|x r] eqn:E; cbn [count_run try_down]; auto.
  destruct (p x); cbn [try_down orelse]; auto.
  rewrite (advance_point _ _ _ E).
  change (pos (point s i cs)) with i. change (pos (point s (S i) cs)) with (S i).
  replace (i <? S i) with true by (symmetry; apply Nat.ltb_lt; lia).
  destruct (skipn_cons_nth _ _ E) as [E1 E2].
  assert (i < length s) by (apply nth_error_Some; congruence).
  rewrite IH by lia. rewrite E2. apply try_down_shift.
Qed.

Lemma star_lazy (n i : nat) :
  length s - i < n ->
  star_loop (run ic (Class p)) false n (point s i cs) k
  = try_up s cs k i (count_run p (skipn i s)).
Proof.
  revert i. induction n as [|n IH]; intros i Hn; [lia|].
  cbn [star_loop run]. change (rest (point s i cs)) with (skipn i s).
  destruct (skipn i s) as [|x r] eqn:E; cbn [count_run try_up].
  - now destruct (k (point s i cs)).
  - destruct (p x); cbn [try_up]; [|now destruct (k (point s i cs))].
    rewrite (advance_point _ _ _ E).
    change (pos (point s i cs)) with i. change (pos (point s (S i) cs)) with (S i).
    replace (i <? S i) with true by (symmetry; apply Nat.ltb_lt; lia).
    destruct (skipn_cons_nth _ _ E) as [E1 E2].
    assert (i < length s) by (apply nth_error_Some; congruence).
    rewrite IH by lia. now rewrite E2.
Qed.

Lemma try_down_top (i j : nat) :
  (k (point s (i + j) cs) <> None
   \/ forall j', j' < j -> k (point s (i + j') cs) = None) ->
  try_down s cs k i j = k (point s (i + j) cs).
Proof.
  destruct j as [|j]; cbn [try_down]; [now rewrite Nat.add_0_r|].
  intros [H|H].
  - destruct (k (point s (i + S j) cs)); [reflexivity|congruence].
  - destruct (k (point s (i + S j) cs)); [reflexivity|].
    cbn [orelse]. clear -H. induction j as [|j IH]; cbn [try_down].
    + rewrite <- (Nat.add_0_r i). apply H. lia.
    + rewrite (H (S j)) by lia. cbn [orelse]. apply IH.
      intros j' Hj. apply H. lia.
Qed.

End Repetition.

Lemma count_run_inside (p : ascii -> bool) (t : str) (j : nat) :
  j < count_run p t -> exists x, nth_error t j = Some x /\ p x = true.
Proof.
  revert j. induction t as [|x t IH]; intros j H; simpl in H; [lia|].
  destruct (p x) eqn:P; [|lia].
  destruct j as [|j]; simpl; eauto. apply IH. lia.
Qed.

Lemma count_run_stop (p : ascii -> bool) (t : str) (x : ascii) :
  nth_error t (count_run p t) = Some x -> p x = false.
Proof.
  induction t as [|y t IH]; simpl; [discriminate|].
  destruct (p y) eqn:P; simpl; auto. intros H. inversion H. congruence.
Qed.

Lemma count_run_split (p : ascii -> bool) (t : str) :
  t = firstn (count_run p t) t ++ skipn (count_run p t) t
  /\ Forall (fun x => p x = true) (firstn (count_run p t) t).
Proof.
  induction t as [|y t [IH1 IH2]]; simpl; auto.
  destruct (p y) eqn:P; simpl; auto.
  split; [f_equal; exact IH1|]. constructor; auto.
Qed.

(** ** The sentence pattern *)

Lemma run_Seq (ic : bool) (a b : regex) (st : state) (k : cont) :
  run ic (a +++ b) st k = run ic a st (fun st' => run ic b st' k).
Proof. reflexivity. Qed.

Lemma run_Group (ic : bool) (n : nat) (a : regex) (st : state) (k : cont) :
  run ic (Group n a) st k
  = run ic a st (fun st' => k (close_group n (pos st) st')).
Proof. reflexivity. Qed.

Lemma run_Star (ic g : bool) (a : regex) (st : state) (k : cont) :
  run ic (Star g a) st k
  = star_loop (run ic a) g (S (length (rest st))) st k.
Proof. reflexivity. Qed.

Section PointSteps.

Variable s : str.

Lemma skipn_nth_cons (i : nat) (x : ascii) :
  nth_error s i = Some x -> skipn i s = x :: skipn (S i) s.
Proof.
  revert i. induction s as [|y t IH]; intros [|i] H; simpl in *; try discriminate.
  - now inversion H.
  - now apply IH.
Qed.

Lemma run_class_point (ic : bool) (p : ascii -> bool) (i : nat) cs (k : cont) :
  run ic (Class p) (point s i cs) k
  = match nth_error s i with
    | Some x => if p x then k (point s (S i) cs) else None
    | None => None
    end.
Proof.
  cbn [run]. change (rest (point s i cs)) with (skipn i s).
  destruct (nth_error s i) as [x|] eqn:E.
  - rewrite (skipn_nth_cons _ E).
    destruct (p x); auto. f_equal. apply advance_point.
    now apply skipn_nth_cons.
  - apply nth_error_None in E. now rewrite skipn_all2.
Qed.

Lemma run_opt_space (e : nat) cs :
  run false (Opt (Lit " ")) (point s e cs) Some
  = Some (point s (skip_space s e) cs).
Proof.
  unfold Opt, skip_space. cbn [run].
  change (rest (point s e cs)) with (skipn e s).
  destruct (nth_error s e) as [x|] eqn:E.
  - rewrite (skipn_nth_cons _ E). cbn [lit_eq].
    destruct (Ascii.eqb x " "); auto. cbn [orelse]. f_equal.
    apply advance_point. now apply skipn_nth_cons.
  - apply nth_error_None in E. now rewrite skipn_all2.
Qed.

Lemma run_sentence (i : nat) :
  run false SENTENCE_REGEX (point s i []) Some
  = match sentence_len (skipn i s) with
    | Some n => Some (point s (skip_space s (i + n)) [(1, (i, i + n))])
    | None => None
    end.
Proof.
  unfold SENTENCE_REGEX, Plus, sentence_len.
  rewrite run_Seq, run_Group, !run_Seq, run_class_point.
  destruct (nth_error s i) as [x|] eqn:E.
  2:{ apply nth_error_None in E. now rewrite skipn_all2. }
  rewrite (skipn_nth_cons _ E). cbn [count_run].
  destruct (non_terminal x); [|reflexivity].
  assert (Hi : i < length s) by (apply nth_error_Some; congruence).
  rewrite run_Star. change (rest (point s (S i) [])) with (skipn (S i) s).
  rewrite star_greedy by (rewrite length_skipn; lia).
  set (m := count_run non_terminal (skipn (S i) s)).
  rewrite try_down_top.
  2:{ right. intros j Hj. rewrite run_Seq, run_class_point.
      destruct (count_run_inside _ _ Hj) as [c [Hc Hp]].
      rewrite nth_error_skipn in Hc. rewrite Hc.
      unfold non_terminal in Hp. apply negb_true_iff in Hp. now rewrite Hp. }
  rewrite run_Seq, run_class_point.
  change (skipn (S m) (x :: skipn (S i) s)) with (skipn m (skipn (S i) s)).
  destruct (nth_error s (S i + m)) as [c|] eqn:Ec.
  2:{ apply nth_error_None in Ec.
      rewrite (skipn_all2 (n := m)); [reflexivity|].
      rewrite length_skipn. lia. }
  assert (Ht : is_terminal c = true).
  { pose proof (count_run_stop non_terminal (skipn (S i) s)) as Hs.
    fold m in Hs. rewrite nth_error_skipn in Hs. specialize (Hs c Ec).
    unfold non_terminal in Hs. now apply negb_false_iff in Hs. }
  rewrite Ht.
  assert (Es : skipn m (skipn (S i) s) = c :: skipn (S (S i + m)) s).
  { rewrite skipn_skipn, (Nat.add_comm m). now apply skipn_nth_cons. }
  rewrite Es, run_Star.
  change (rest (point s (S (S i + m)) [])) with (skipn (S (S i + m)) s).
  rewrite star_greedy by (rewrite length_skipn; lia).
  set (b := count_run non_space (skipn (S (S i + m)) s)).
  rewrite try_down_top.
  2:{ left. change (pos (point s i [])) with i.
      change (close_group 1 i (point s (S (S i + m) + b) []))
        with (point s (S (S i + m) + b) [(1, (i, S (S i + m) + b))]).
      rewrite run_opt_space. discriminate. }
  change (pos (point s i [])) with i.
  change (close_group 1 i (point s (S (S i + m) + b) []))
    with (point s (S (S i + m) + b) [(1, (i, S (S i + m) + b))]).
  rewrite run_opt_space.
  replace (S (S i + m) + b) with (i + (S m + 1 + b)) by lia.
  reflexivity.
Qed.

End PointSteps.

(** ** [findall] with the sentence pattern *)

Lemma search_sentence (s t : str) (i : nat) :
  skipn i s = t ->
  search_from false SENTENCE_REGEX i (before s i) t
  = match next_sentence t with
    | Some (j, n) =>
        Some (point s (skip_space s (i + j + n)) [(1, (i + j, i + j + n))])
    | None => None
    end.
Proof.
  revert i. induction t as [|x t IH]; intros i E; cbn [search_from next_sentence];
    rewrite <- E; fold (point s i []); rewrite run_sentence, E.
  - destruct (sentence_len []); [now rewrite Nat.add_0_r|reflexivity].
  - destruct (sentence_len (x :: t)); [now rewrite Nat.add_0_r|].
    destruct (skipn_cons_nth _ _ E) as [E1 E2].
    rewrite <- E1. change (nth_error s i) with (before s (S i)).
    rewrite (IH (S i) E2).
    destruct (next_sentence t) as [[j n]|]; [|reflexivity].
    now rewrite Nat.add_succ_r.
Qed.

Lemma skip_space_skipn (s : str) (i e : nat) :
  skip_space s (i + e) = i + skip_space (skipn i s) e.
Proof.
  unfold skip_space. rewrite nth_error_skipn.
  destruct (nth_error s (i + e)) as [c|]; [|reflexivity].
  destruct (Ascii.eqb c " "); lia.
Qed.

Lemma findall_units (s : str) (fuel i : nat) :
  findall_from false SENTENCE_REGEX s fuel i (before s i) (skipn i s)
  = units fuel (skipn i s).
Proof.
  revert i. induction fuel as [|f IH]; intros i; cbn [findall_from units]; auto.
  rewrite (search_sentence s i eq_refl).
  destruct (next_sentence (skipn i s)) as [[j n]|]; [|reflexivity].
  unfold group_text. cbn [caps point span Nat.eqb pos prev rest].
  rewrite IH. unfold slice.
  replace (i + j + n - (i + j)) with n by lia.
  rewrite <- Nat.add_assoc, skip_space_skipn, !skipn_skipn.
  rewrite (Nat.add_comm j i), (Nat.add_comm _ i). reflexivity.
Qed.

Lemma sentences_units (t : str) :
  Writer.sentences t = units (S (length t)) t.
Proof.
  unfold Writer.sentences, re_findall.
  exact (findall_units t (S (length t)) 0).
Qed.

(** ** The shape of a sentence *)

Lemma count_run_all (p : ascii -> bool) (t : str) :
  Forall (fun x => p x = true) t -> count_run p t = length t.
Proof.
  induction 1 as [|x t H _ IH]; simpl; auto. now rewrite H, IH.
Qed.

Lemma count_run_app (p : ascii -> bool) (a b : str) :
  count_run p (a ++ b)
  = if count_run p a =? length a then length a + count_run p b
    else count_run p a.
Proof.
  induction a as [|x a IH]; simpl; auto.
  destruct (p x); simpl; auto. rewrite IH.
  now destruct (count_run p a =? length a).
Qed.

Lemma count_run_le (p : ascii -> bool) (t : str) : count_run p t <= length t.
Proof.
  induction t as [|x t IH]; simpl; auto. destruct (p x); lia.
Qed.

Lemma count_run_firstn (p : ascii -> bool) (t : str) :
  count_run p (firstn (count_run p t) t) = count_run p t.
Proof.
  induction t as [|x t IH]; simpl; auto.
  destruct (p x) eqn:P; simpl; auto. now rewrite P, IH.
Qed.

Lemma sentence_len_bound (t : str) (n : nat) :
  sentence_len t = Some n -> 2 <= n <= length t.
Proof.
  unfold sentence_len.
  destruct (count_run non_terminal t) as [|a] eqn:A; [discriminate|].
  destruct (skipn (S a) t) as [|c t2] eqn:E; [discriminate|].
  intros H. inversion H; subst n.
  pose proof (count_run_le non_space t2).
  assert (length (skipn (S a) t) = S (length t2)) by now rewrite E.
  rewrite length_skipn in H1. lia.
Qed.

(** a sentence read alone is read whole *)
Lemma sentence_len_firstn (t : str) (n : nat) :
  sentence_len t = Some n -> sentence_len (firstn n t) = Some n.
Proof.
  unfold sentence_len.
  destruct (count_run non_terminal t) as [|a] eqn:A; [discriminate|].
  destruct (skipn (S a) t) as [|c t2] eqn:E; [discriminate|].
  intros H. inversion H. subst n. clear H.
  set (b := count_run non_space t2) in *.
  assert (Ht : t = firstn (S a) t ++ c :: t2) by now rewrite <- E, firstn_skipn.
  assert (La : length (firstn (S a) t) = S a).
  { apply firstn_length_le. rewrite <- A. apply count_run_le. }
  assert (Hu : firstn (S a + 1 + b) t = firstn (S a) t ++ c :: firstn b t2).
  { rewrite Ht at 1. rewrite firstn_app, La.
    rewrite firstn_all2 by (rewrite La; lia).
    replace (S a + 1 + b - S a) with (S b) by lia. reflexivity. }
  assert (Hc : non_terminal c = false).
  { apply (count_run_stop non_terminal t). rewrite A.
    rewrite <- (Nat.add_0_r (S a)), <- nth_error_skipn, E. reflexivity. }
  assert (Hr : count_run non_terminal (firstn (S a + 1 + b) t) = S a).
  { rewrite Hu, count_run_app, <- A, count_run_firstn, A, La, Nat.eqb_refl.
    cbn [count_run]. rewrite Hc. lia. }
  change (S (a + 1 + b)) with (S a + 1 + b).
  rewrite Hr, Hu.
  rewrite skipn_app, La, Nat.sub_diag, skipn_all2 by (rewrite La; lia).
  cbn [skipn app].
  subst b. now rewrite count_run_firstn.
Qed.

Lemma next_sentence_here (t : str) (j n : nat) :
  next_sentence t = Some (j, n) ->
  sentence_len (skipn j t) = Some n /\ j + n <= length t.
Proof.
  revert j. induction t as [|x t IH]; intros j; cbn [next_sentence].
  - destruct (sentence_len []) eqn:E; [|discriminate].
    intros H. inversion H; subst. apply sentence_len_bound in E. simpl in *. lia.
  - destruct (sentence_len (x :: t)) eqn:E.
    + intros H. inversion H; subst. split; auto.
      apply sentence_len_bound in E. lia.
    + destruct (next_sentence t) as [[j' n']|]; [|discriminate].
      intros H. inversion H; subst.
      destruct (IH j' eq_refl). simpl. split; auto. lia.
Qed.

Lemma units_shape (fuel : nat) (t u : str) :
  In u (units fuel t) ->
  exists t' n, sentence_len t' = Some n /\ u = firstn n t'.
Proof.
  revert t. induction fuel as [|f IH]; intros t; cbn [units]; [intros []|].
  destruct (next_sentence t) as [[j n]|] eqn:E; [|intros []].
  intros [<-|H]; [|eauto].
  exists (skipn j t), n. split; auto. now apply next_sentence_here.
Qed.

Lemma units_single (u : str) :
  sentence_len u = Some (length u) -> units (S (length u)) u = [u].
Proof.
  intros H. cbn [units]. destruct u as [|x u].
  - apply sentence_len_bound in H. simpl in H. lia.
  - cbn [next_sentence]. rewrite H. cbn [skipn Nat.add].
    rewrite firstn_all. f_equal.
    unfold skip_space.
    replace (nth_error (x :: u) (length (x :: u))) with (@None ascii)
      by (symmetry; apply nth_error_None; lia).
    rewrite skipn_all.
    destruct (length u); reflexivity.
Qed.

(** C8: a sentence that the splitting of a verse text gives is, split
    again, that one sentence. *)
Theorem split_idempotent (verse_text u : str) :
  In u (Writer.sentences verse_text) -> Writer.sentences u = [u].
Proof.
  rewrite !sentences_units. intros H.
  apply units_shape in H. destruct H as [t [n [H ->]]].
  pose proof (sentence_len_bound _ H) as Hb.
  pose proof (sentence_len_firstn _ H) as Hf.
  assert (L : length (firstn n t) = n) by (apply firstn_length_le; lia).
  rewrite <- L in Hf at 2.
  now apply units_single.
Qed.

Lemma split_idempotent_witness :
  Writer.sentences (lit "She ran home.") = [lit "She ran home."].
Proof.
  apply (@split_idempotent (lit "He walked to the market. She ran home.")).
  vm_compute. right. left. reflexivity.
Defined.

(** ** Text after the last sentence *)

Lemma sentence_len_free (b : str) :
  Forall (fun x => non_terminal x = true) b -> sentence_len b = None.
Proof.
  intros H. unfold sentence_len. rewrite (@count_run_all _ _ H).
  destruct (length b) as [|n] eqn:L; auto.
  now rewrite skipn_all2 by lia.
Qed.

Lemma next_sentence_free (b : str) :
  Forall (fun x => non_terminal x = true) b -> next_sentence b = None.
Proof.
  induction 1 as [|x b Hx Hb IH]; cbn [next_sentence].
  - reflexivity.
  - rewrite sentence_len_free by (constructor; auto). now rewrite IH.
Qed.

Lemma units_free (fuel : nat) (b : str) :
  Forall (fun x => non_terminal x = true) b -> units fuel b = [].
Proof.
  intros H. destruct fuel; cbn [units]; auto. now rewrite next_sentence_free.
Qed.

Lemma count_space_blank (a b : str) :
  starts_blank b -> count_run non_space (a ++ b) = count_run non_space a.
Proof.
  intros H. rewrite count_run_app.
  destruct (count_run non_space a =? length a) eqn:E; auto.
  apply Nat.eqb_eq in E. destruct b as [|c b]; cbn [count_run]; [lia|].
  unfold non_space at 1. cbn [starts_blank] in H. rewrite H. cbn [negb]. lia.
Qed.

Lemma sentence_len_app (a b : str) :
  Forall (fun x => non_terminal x = true) b -> starts_blank b ->
  sentence_len (a ++ b) = sentence_len a.
Proof.
  intros Hf Hb. unfold sentence_len. cbv zeta. rewrite count_run_app.
  destruct (count_run non_terminal a =? length a) eqn:E.
  - apply Nat.eqb_eq in E. rewrite E, (@count_run_all _ _ Hf).
    destruct (length a + length b) as [|n] eqn:L1;
      destruct (length a) as [|m] eqn:L2; auto; try lia.
    + now rewrite skipn_all2 by (rewrite length_app; lia).
    + rewrite skipn_all2 by (rewrite length_app; lia).
      now rewrite skipn_all2 by lia.
  - apply Nat.eqb_neq in E. pose proof (count_run_le non_terminal a) as L.
    destruct (count_run non_terminal a) as [|n]; auto.
    rewrite skipn_app. replace (S n - length a) with 0 by lia.
    change (skipn 0 b) with b.
    destruct (skipn (S n) a) as [|c t2] eqn:K.
    + assert (length (skipn (S n) a) = 0) by now rewrite K.
      rewrite length_skipn in H. lia.
    + cbn [app]. now rewrite count_space_blank.
Qed.

Lemma next_sentence_app (a b : str) :
  Forall (fun x => non_terminal x = true) b -> a = [] \/ starts_blank b ->
  next_sentence (a ++ b) = next_sentence a.
Proof.
  intros Hf. induction a as [|x a IH]; intros Hb.
  - cbn [app]. now rewrite next_sentence_free.
  - destruct Hb as [Hb|Hb]; [discriminate|].
    cbn [app next_sentence]. change (x :: a ++ b) with ((x :: a) ++ b).
    rewrite sentence_len_app by auto. now rewrite IH by auto.
Qed.

Lemma units_app (f1 f2 : nat) (a b : str) :
  length (a ++ b) < f1 -> length a < f2 ->
  Forall (fun x => non_terminal x = true) b -> a = [] \/ starts_blank b ->
  units f1 (a ++ b) = units f2 a.
Proof.
  revert f2 a b. induction f1 as [|f1 IH]; intros f2 a b H1 H2 Hf Hb; [lia|].
  destruct f2 as [|f2]; [lia|]. cbn [units].
  rewrite next_sentence_app by auto.
  destruct (next_sentence a) as [[j n]|] eqn:E; [|reflexivity].
  destruct (next_sentence_here _ E) as [Hs Hl].
  pose proof (sentence_len_bound _ Hs) as Hn.
  assert (Ha : a <> []) by (intros ->; simpl in Hl; lia).
  destruct Hb as [Hb|Hb]; [contradiction|].
  f_equal.
  - rewrite skipn_app, firstn_app, length_skipn.
    replace (j - length a) with 0 by lia.
    replace (n - (length a - j)) with 0 by lia.
    cbn [skipn firstn]. now rewrite app_nil_r.
  - unfold skip_space.
    destruct (Nat.eq_dec (j + n) (length a)) as [Q|Q].
    + replace (nth_error a (j + n)) with (@None ascii)
        by (symmetry; apply nth_error_None; lia).
      rewrite Q, skipn_all.
      rewrite (units_free f2 (b := [])) by constructor.
      rewrite nth_error_app2, Nat.sub_diag by lia.
      destruct b as [|c b]; cbn [nth_error].
      * rewrite skipn_all2 by (rewrite length_app; simpl; lia).
        apply units_free. constructor.
      * inversion Hf; subst.
        destruct (Ascii.eqb c " ").
        -- rewrite skipn_app, skipn_all2 by lia.
           replace (S (length a) - length a) with 1 by lia.
           cbn [skipn app]. now apply units_free.
        -- rewrite skipn_app, skipn_all, Nat.sub_diag. cbn [skipn app].
           apply units_free. now constructor.
    + rewrite nth_error_app1 by lia.
      assert (K : skip_space a (j + n) <= length a).
      { unfold skip_space. destruct (nth_error a (j + n)) as [c|] eqn:N; [|lia].
        destruct (Ascii.eqb c " "); lia. }
      assert (K2 : 0 < skip_space a (j + n)).
      { unfold skip_space. destruct (nth_error a (j + n)) as [c|]; [|lia].
        destruct (Ascii.eqb c " "); lia. }
      fold (skip_space a (j + n)).
      rewrite skipn_app. replace (skip_space a (j + n) - length a) with 0 by lia.
      cbn [skipn]. apply IH; auto.
      * rewrite length_app, length_skipn. rewrite length_app in H1. lia.
      * rewrite length_skipn. lia.
Qed.

(** any fuel above the length of the text gives the sentences of the text *)
Lemma findall_enough (t : str) (fuel : nat) :
  length t < fuel ->
  findall_from false SENTENCE_REGEX t fuel 0 None t = sentences t.
Proof.
  intros H. rewrite sentences_units.
  change (findall_from false SENTENCE_REGEX t fuel 0 None t)
    with (findall_from false SENTENCE_REGEX t fuel 0 (before t 0) (skipn 0 t)).
  rewrite findall_units. change (skipn 0 t) with t.
  transitivity (units fuel (t ++ [])); [now rewrite app_nil_r|].
  apply units_app; [rewrite app_nil_r; lia|lia|constructor|right; exact I].
Qed.




(** ** The header pattern *)

Section MoreSteps.

Variables (ic : bool) (s : str).

Lemma run_lit_point (c : ascii) (i : nat) cs (k : cont) :
  run ic (Lit c) (point s i cs) k
  = match nth_error s i with
    | Some x => if lit_eq ic x c then k (point s (S i) cs) else None
    | None => None
    end.
Proof.
  cbn [run]. change (rest (point s i cs)) with (skipn i s).
  destruct (nth_error s i) as [x|] eqn:E.
  - rewrite (@skipn_nth_cons _ _ _ E).
    destruct (lit_eq ic x c); auto. f_equal. apply advance_point.
    now apply skipn_nth_cons.
  - apply nth_error_None in E. now rewrite skipn_all2.
Qed.

Lemma run_eol_point (i : nat) cs (k : cont) :
  run ic Eol (point s i cs) k
  = if at_eol (point s i cs) then k (point s i cs) else None.
Proof. reflexivity. Qed.

Lemma try_up_first cs (k : cont) (i m j : nat) :
  j <= m ->
  (forall j', j' < j -> k (point s (i + j') cs) = None) ->
  k (point s (i + j) cs) <> None ->
  try_up s cs k i m = k (point s (i + j) cs).
Proof.
  revert i m. induction j as [|j IH]; intros i m Hm Hn Hk.
  - rewrite Nat.add_0_r in *.
    destruct m; cbn [try_up]; auto.
    destruct (k (point s i cs)); [reflexivity|congruence].
  - destruct m as [|m]; [lia|]. cbn [try_up].
    rewrite <- (Nat.add_0_r i) at 1. rewrite (Hn 0) by lia. cbn [orelse].
    replace (i + S j) with (S i + j) in * by lia.
    apply IH; auto; [lia|].
    intros j' Hj. replace (S i + j') with (i + S j') by lia. apply Hn. lia.
Qed.

End MoreSteps.

Lemma skipn_app_plus (a b : str) (j : nat) :
  skipn (length a + j) (a ++ b) = skipn j b.
Proof.
  rewrite skipn_app. rewrite skipn_all2 by lia.
  now replace (length a + j - length a) with j by lia.
Qed.

Lemma nth_app_plus (a b : str) (j : nat) :
  nth_error (a ++ b) (length a + j) = nth_error b j.
Proof.
  rewrite nth_error_app2 by lia. f_equal. lia.
Qed.

Lemma lit_prefix_self (ic : bool) (w t : str) : lit_prefix ic w (w ++ t) = true.
Proof.
  induction w as [|c w IH]; simpl; auto. rewrite IH.
  unfold lit_eq. destruct ic; now rewrite Ascii.eqb_refl.
Qed.

Lemma lit_prefix_nth (ic : bool) (w t : str) (j : nat) (c x : ascii) :
  lit_prefix ic w t = true -> nth_error w j = Some c -> nth_error t j = Some x ->
  lit_eq ic x c = true.
Proof.
  revert t j. induction w as [|d w IH]; intros t j H Hc Hx.
  - destruct j; discriminate.
  - destruct t as [|y t]; [discriminate|]. simpl in H.
    apply andb_true_iff in H. destruct H as [H1 H2].
    destruct j as [|j]; simpl in *.
    + inversion Hc; inversion Hx; subst. auto.
    + eapply IH; eauto.
Qed.

Lemma run_Bol (ic : bool) (st : state) (k : cont) :
  run ic Bol st k = if pos st =? 0 then k st else None.
Proof. reflexivity. Qed.

Lemma run_Alt (ic : bool) (a b : regex) (st : state) (k : cont) :
  run ic (Alt a b) st k = orelse (run ic a st k) (run ic b st k).
Proof. reflexivity. Qed.

Lemma close_point (s : str) (n a i : nat) cs :
  close_group n a (point s i cs) = point s i ((n, (a, i)) :: cs).
Proof. reflexivity. Qed.

Lemma letter_is_lemma_char (c : ascii) : is_letter c = true -> is_lemma_char c = true.
Proof. unfold is_lemma_char. intros ->. now rewrite orb_true_r. Qed.

Lemma lit_eq_code (x c : ascii) : lit_eq false x c = true -> code x = code c.
Proof. unfold lit_eq. rewrite Ascii.eqb_eq. now intros ->. Qed.

Lemma lemma_char_not_newline (x : ascii) :
  is_lemma_char x = true -> (code x =? 10) = false.
Proof.
  intros H. destruct (code x =? 10) eqn:E; auto.
  apply Nat.eqb_eq in E.
  unfold is_lemma_char, is_letter, is_digit, between in H.
  rewrite E in H. discriminate.
Qed.

Lemma lemma_char_not_quote (x : ascii) :
  is_lemma_char x = true -> x <> "'"%char.
Proof. intros H ->. discriminate. Qed.

Lemma tail_fails (s : str) (r : nat) cs (x : ascii) :
  nth_error s r = Some x -> is_lemma_char x = true ->
  nth_error s (r + 2) <> Some "'"%char ->
  run false TAIL (point s r cs) Some = None.
Proof.
  intros Hx Hl Hq. unfold TAIL, Opt.
  rewrite run_Seq, run_Alt, run_Seq, run_lits_point.
  assert (P : lit_prefix false (lit "  '") (skipn r s) = false).
  { rewrite <- nth_error_skipn in Hq.
    destruct (skipn r s) as [|a [|b [|c t]]]; auto;
      cbn [lit lit_prefix list_ascii_of_string]; rewrite ?andb_false_r; auto.
    cbn [nth_error] in Hq.
    unfold lit_eq at 3. destruct (Ascii.eqb_spec c "'"); [congruence|].
    now rewrite !andb_false_r. }
  rewrite P. cbn [orelse run].
  unfold at_eol. change (rest (point s r cs)) with (skipn r s).
  rewrite (@skipn_nth_cons _ _ _ Hx).
  destruct (skipn (S r) s); [|reflexivity].
  now rewrite lemma_char_not_newline.
Qed.

Lemma option_case (A : Type) (o : option A) : o = None \/ exists a, o = Some a.
Proof. destruct o; eauto. Qed.

Section Header.

Variables (category stem : str) (tag : ascii) (g : option str) (eol : str).

Hypothesis category_letters : Forall (fun x => is_letter x = true) category.
Hypothesis category_some : category <> [].
Hypothesis stem_chars : Forall (fun x => is_lemma_char x = true) stem.
Hypothesis stem_some : stem <> [].
Hypothesis tag_capital : is_capital tag = true.
Hypothesis gloss_chars :
  match g with
  | Some gl => gl <> [] /\ Forall (fun x => not_newline x = true) gl
  | None => True
  end.
Hypothesis eol_newline : eol = [] \/ eol = ["010"%char].

Let W : str := stem ++ ["-"%char; tag].
Let Z : str := quoted g ++ eol.
Let line : str := header_line category stem tag g eol.
Let p1 : nat := 9 + length category.
Let p2 : nat := p1 + 3.

Lemma line_at_9 (j : nat) :
  skipn (9 + j) line = skipn j (category ++ lit "): " ++ W ++ Z).
Proof. exact (skipn_app_plus (lit "Concept (") _ j). Qed.

Lemma line_at_p1 (j : nat) : skipn (p1 + j) line = skipn j (lit "): " ++ W ++ Z).
Proof.
  unfold p1. rewrite <- Nat.add_assoc, line_at_9. apply skipn_app_plus.
Qed.

Lemma line_at_p2 (j : nat) : skipn (p2 + j) line = skipn j (W ++ Z).
Proof.
  unfold p2. rewrite <- Nat.add_assoc, line_at_p1.
  exact (skipn_app_plus (lit "): ") _ j).
Qed.

Lemma line_at_end (j : nat) : skipn (p2 + length W + j) line = skipn j Z.
Proof. rewrite <- Nat.add_assoc, line_at_p2. apply skipn_app_plus. Qed.

Lemma nth_line (i : nat) : nth_error line i = hd_error (skipn i line).
Proof. symmetry. apply hd_skipn. Qed.

Lemma W_chars : Forall (fun x => is_lemma_char x = true) W.
Proof.
  unfold W. apply Forall_app. split; auto.
  constructor; [reflexivity|]. constructor; [|constructor].
  unfold is_lemma_char, is_letter. fold (is_capital tag). rewrite tag_capital.
  now rewrite orb_true_r.
Qed.

Lemma eol_at_end : at_eol (mkState 0 None eol []) = true.
Proof. destruct eol_newline as [-> | ->]; reflexivity. Qed.

Lemma at_eol_point (i : nat) cs :
  at_eol (point line i cs) = at_eol (mkState 0 None (skipn i line) []).
Proof. reflexivity. Qed.

Lemma at_eol_quote (a b : str) :
  at_eol (mkState 0 None (a ++ "'"%char :: b) []) = false.
Proof.
  unfold at_eol. cbn [rest].
  destruct a as [|x [|y a]]; cbn [app]; auto.
  destruct b; reflexivity.
Qed.

Lemma count_run_ge (p : ascii -> bool) (a b : str) :
  Forall (fun x => p x = true) a -> length a <= count_run p (a ++ b).
Proof.
  induction 1 as [|x a Hx _ IH]; simpl; [lia|]. rewrite Hx. lia.
Qed.

(** the end of a header without a gloss *)
Lemma tail_plain cs :
  g = None ->
  run false TAIL (point line (p2 + length W) cs) Some
  = Some (point line (p2 + length W) cs).
Proof.
  intros G. unfold TAIL, Opt.
  rewrite run_Seq, run_Alt, run_Seq, run_lits_point.
  rewrite <- (Nat.add_0_r (p2 + length W)) at 1 3. rewrite line_at_end.
  unfold Z. rewrite G. cbn [quoted app skipn].
  assert (P : lit_prefix false (lit "  '") eol = false)
    by (destruct eol_newline as [-> | ->]; reflexivity).
  rewrite P. cbn [orelse run]. rewrite at_eol_point.
  rewrite <- (Nat.add_0_r (p2 + length W)) at 1. rewrite line_at_end.
  unfold Z. rewrite G. cbn [quoted app skipn].
  rewrite eol_at_end. now rewrite ?Nat.add_0_r.
Qed.

(** the end of a header with a gloss *)
Lemma tail_gloss cs (gl : str) :
  g = Some gl ->
  run false TAIL (point line (p2 + length W) cs) Some
  = Some (point line (p2 + length W + 3 + length gl + 1)
                ((3, (p2 + length W + 3, p2 + length W + 3 + length gl)) :: cs)).
Proof.
  intros G. pose proof gloss_chars as Hg. rewrite G in Hg.
  destruct Hg as [Hne Hnl].
  destruct gl as [|y0 gl']; [congruence|]. clear Hne.
  pose proof (Forall_inv Hnl) as Hy0. pose proof (Forall_inv_tail Hnl) as Hgl'.
  cbv beta in Hy0.
  set (e := p2 + length W).
  assert (L : forall j, skipn (e + 3 + j) line
                        = skipn j ((y0 :: gl') ++ "'"%char :: eol)).
  { intros j. unfold e. rewrite <- Nat.add_assoc, line_at_end.
    unfold Z. rewrite G. cbn [quoted].
    rewrite <- !app_assoc.
    exact (skipn_app_plus (lit "  '") _ j). }
  unfold TAIL, Opt.
  rewrite run_Seq, run_Alt, run_Seq, run_lits_point.
  assert (P : lit_prefix false (lit "  '") (skipn e line) = true).
  { unfold e. rewrite <- (Nat.add_0_r (p2 + length W)), line_at_end.
    unfold Z. rewrite G. cbn [quoted skipn]. rewrite <- app_assoc.
    apply lit_prefix_self. }
  rewrite P. change (length (lit "  '")) with 3.
  unfold Plus. rewrite run_Seq, run_Group, run_Seq, run_class_point.
  rewrite nth_line, <- (Nat.add_0_r (e + 3)), L. cbn [skipn app hd_error].
  rewrite Hy0, run_Star, Nat.add_0_r.
  change (rest (point line (S (e + 3)) cs)) with (skipn (S (e + 3)) line).
  rewrite star_lazy by (rewrite length_skipn; lia).
  rewrite try_up_first with (j := length gl').
  - cbv beta. rewrite close_point, run_lit_point.
    replace (S (e + 3) + length gl') with (e + 3 + S (length gl')) by lia.
    rewrite nth_line, L.
    change (S (length gl')) with (length (y0 :: gl')).
    rewrite skipn_app, skipn_all, Nat.sub_diag. cbn [skipn app hd_error lit_eq].
    rewrite Ascii.eqb_refl, run_eol_point, at_eol_point.
    replace (S (e + 3 + length (y0 :: gl'))) with (e + 3 + S (length (y0 :: gl')))
      by lia.
    rewrite L.
    replace (S (length (y0 :: gl'))) with (length ((y0 :: gl') ++ ["'"%char]))
      by (rewrite length_app; simpl; lia).
    change ((y0 :: gl') ++ "'"%char :: eol)
      with ((y0 :: gl') ++ ["'"%char] ++ eol).
    rewrite app_assoc, skipn_app, skipn_all, Nat.sub_diag. cbn [skipn app].
    rewrite eol_at_end. cbn [orelse].
    change (pos (point line (e + 3) cs)) with (e + 3).
    replace (e + 3 + length (y0 :: gl' ++ ["'"%char]))
      with (e + 3 + length (y0 :: gl') + 1)
      by (cbn [length]; rewrite length_app; cbn [length]; lia).
    reflexivity.
  - replace (S (e + 3)) with (e + 3 + 1) by lia. rewrite L.
    cbn [skipn app].
    change (gl' ++ "'"%char :: eol) with (gl' ++ ("'"%char :: eol)).
    now apply count_run_ge.
  - intros j' Hj. cbv beta. rewrite close_point, run_lit_point.
    destruct (nth_error line (S (e + 3) + j')) as [y|]; [|reflexivity].
    destruct (lit_eq false y "'"); [|reflexivity].
    rewrite run_eol_point, at_eol_point.
    replace (S (S (e + 3) + j')) with (e + 3 + (j' + 2)) by lia.
    rewrite L. replace (j' + 2) with (S (S j')) by lia.
    change (skipn (S (S j')) ((y0 :: gl') ++ "'"%char :: eol))
      with (skipn (S j') (gl' ++ "'"%char :: eol)).
    rewrite skipn_app.
    replace (S j' - length gl') with 0 by lia.
    change (skipn 0 ("'"%char :: eol)) with ("'"%char :: eol).
    now rewrite at_eol_quote.
  - cbv beta. rewrite close_point, run_lit_point.
    replace (S (e + 3) + length gl') with (e + 3 + S (length gl')) by lia.
    rewrite nth_line, L.
    change (S (length gl')) with (length (y0 :: gl')).
    rewrite skipn_app, skipn_all, Nat.sub_diag. cbn [skipn app hd_error lit_eq].
    rewrite Ascii.eqb_refl, run_eol_point, at_eol_point.
    replace (S (e + 3 + length (y0 :: gl'))) with (e + 3 + S (length (y0 :: gl')))
      by lia.
    rewrite L.
    replace (S (length (y0 :: gl'))) with (length ((y0 :: gl') ++ ["'"%char]))
      by (rewrite length_app; simpl; lia).
    change ((y0 :: gl') ++ "'"%char :: eol)
      with ((y0 :: gl') ++ ["'"%char] ++ eol).
    rewrite app_assoc, skipn_app, skipn_all, Nat.sub_diag. cbn [skipn app].
    rewrite eol_at_end. discriminate.
Qed.

Lemma tail_some cs :
  run false TAIL (point line (p2 + length W) cs) Some <> None.
Proof.
  destruct (option_case g) as [G|[gl G]].
  - rewrite (tail_plain cs G). discriminate.
  - rewrite (tail_gloss cs G). discriminate.
Qed.

Lemma nth_line_W (j : nat) : nth_error line (p2 + j) = nth_error (W ++ Z) j.
Proof. now rewrite nth_line, line_at_p2, hd_skipn. Qed.

Lemma nth_in_W (j : nat) :
  j < length W ->
  exists x, nth_error line (p2 + j) = Some x /\ is_lemma_char x = true.
Proof.
  intros Hj. rewrite nth_line_W, nth_error_app1 by lia.
  destruct (nth_error W j) as [x|] eqn:E.
  - exists x. split; auto.
    apply nth_error_In in E. pose proof W_chars as H.
    rewrite Forall_forall in H. now apply H.
  - apply nth_error_None in E. lia.
Qed.

Lemma length_W : length W = length stem + 2.
Proof. unfold W. rewrite length_app. reflexivity. Qed.

Lemma nth_dash : nth_error line (p2 + length stem) = Some "-"%char.
Proof.
  rewrite nth_line_W. unfold W. rewrite <- app_assoc.
  rewrite <- (Nat.add_0_r (length stem)). now rewrite nth_app_plus.
Qed.

Lemma nth_tag : nth_error line (p2 + length stem + 1) = Some tag.
Proof.
  rewrite <- Nat.add_assoc, nth_line_W. unfold W. rewrite <- app_assoc.
  now rewrite nth_app_plus.
Qed.

Lemma no_quote_near (i : nat) :
  i <= length W + 1 -> nth_error (W ++ Z) i <> Some "'"%char.
Proof.
  intros Hi. destruct (Nat.lt_ge_cases i (length W)) as [Hlt|Hge].
  - destruct (nth_in_W Hlt) as [x [Hx Hl]]. rewrite nth_line_W in Hx.
    rewrite Hx. intros E. inversion E. subst x. discriminate.
  - replace i with (length W + (i - length W)) by lia.
    rewrite nth_app_plus. unfold Z.
    assert (D : i - length W = 0 \/ i - length W = 1) by lia.
    destruct (option_case g) as [G|[gl G]]; rewrite G; cbn [quoted].
    + destruct eol_newline as [-> | ->]; destruct D as [-> | ->]; discriminate.
    + destruct D as [-> | ->]; discriminate.
Qed.

Lemma Forall_skipn_chars (p : ascii -> bool) (n : nat) (t : str) :
  Forall (fun x => p x = true) t -> Forall (fun x => p x = true) (skipn n t).
Proof.
  intros H. rewrite Forall_forall in *. intros x Hx. apply H.
  rewrite <- (firstn_skipn n t). apply in_or_app. now right.
Qed.

(** the lemma: the shortest run of lemma characters after which a hyphen, a
    capital and the end of the header follow is the stem *)
Lemma lemma_group cs :
  run false
      (Group 2 (Plus false (Class is_lemma_char) +++ Lit "-" +++ Class is_capital)
       +++ TAIL)
      (point line p2 cs) Some
  = run false TAIL (point line (p2 + length W) ((2, (p2, p2 + length W)) :: cs))
        Some.
Proof.
  pose proof length_W as LW.
  assert (Hs : 0 < length stem) by (destruct stem; [congruence|simpl; lia]).
  unfold Plus. rewrite run_Seq, run_Group, !run_Seq, run_class_point.
  destruct (@nth_in_W 0) as [x0 [Hx0 Hl0]]; [lia|].
  rewrite Nat.add_0_r in Hx0. rewrite Hx0, Hl0, run_Star.
  change (rest (point line (S p2) cs)) with (skipn (S p2) line).
  rewrite star_lazy by (rewrite length_skipn; lia).
  match goal with |- try_up _ _ ?k _ _ = _ => set (K := k) end.
  assert (Kok : K (point line (S p2 + (length stem - 1)) cs)
                = run false TAIL
                      (point line (p2 + length W)
                             ((2, (p2, p2 + length W)) :: cs)) Some).
  { unfold K. rewrite run_Seq, run_lit_point.
    replace (S p2 + (length stem - 1)) with (p2 + length stem) by lia.
    rewrite nth_dash. cbn [lit_eq]. rewrite Ascii.eqb_refl, run_class_point.
    replace (S (p2 + length stem)) with (p2 + length stem + 1) by lia.
    rewrite nth_tag, tag_capital, close_point.
    change (pos (point line p2 cs)) with p2.
    now replace (S (p2 + length stem + 1)) with (p2 + length W) by lia. }
  rewrite try_up_first with (j := length stem - 1).
  - exact Kok.
  - replace (S p2) with (p2 + 1) by lia. rewrite line_at_p2, skipn_app.
    replace (1 - length W) with 0 by lia. change (skipn 0 Z) with Z.
    pose proof (@count_run_ge is_lemma_char (skipn 1 W) Z
                  (Forall_skipn_chars _ 1 W_chars)) as Hc.
    rewrite length_skipn in Hc. lia.
  - intros j' Hj. unfold K. rewrite run_Seq, run_lit_point.
    destruct (nth_error line (S p2 + j')) as [y|]; [|reflexivity].
    destruct (lit_eq false y "-"); [|reflexivity].
    rewrite run_class_point.
    destruct (nth_error line (S (S p2 + j'))) as [y'|]; [|reflexivity].
    destruct (is_capital y'); [|reflexivity].
    rewrite close_point.
    replace (S (S (S p2 + j'))) with (p2 + (j' + 3)) by lia.
    destruct (@nth_in_W (j' + 3)) as [x [Hx Hl]]; [lia|].
    apply tail_fails with (x := x); auto.
    rewrite <- Nat.add_assoc, nth_line_W. apply no_quote_near. lia.
  - rewrite Kok. apply tail_some.
Qed.

(** the category: all the letters up to the closing parenthesis *)
Lemma category_group cs (r : regex) :
  run false (Group 1 (Plus true (Class is_letter)) +++ lits (lit "): ") +++ r)
      (point line 9 cs) Some
  = run false r (point line p2 ((1, (9, p1)) :: cs)) Some.
Proof.
  assert (Hc : 0 < length category) by (destruct category; [congruence|simpl; lia]).
  assert (N : forall j, j < length category ->
                        exists x, nth_error line (9 + j) = Some x
                                  /\ is_letter x = true).
  { intros j Hj. rewrite nth_line, line_at_9, hd_skipn, nth_error_app1 by lia.
    destruct (nth_error category j) as [x|] eqn:E.
    - exists x. split; auto. apply nth_error_In in E.
      pose proof category_letters as H. rewrite Forall_forall in H. now apply H.
    - apply nth_error_None in E. lia. }
  unfold Plus. rewrite run_Seq, run_Group, run_Seq, run_class_point.
  destruct (N 0 Hc) as [c0 [Hc0 Hl0]]. rewrite Nat.add_0_r in Hc0.
  rewrite Hc0, Hl0, run_Star.
  change (rest (point line 10 cs)) with (skipn 10 line).
  rewrite star_greedy by (rewrite length_skipn; lia).
  assert (C : count_run is_letter (skipn 10 line) = length category - 1).
  { change 10 with (9 + 1). rewrite line_at_9, skipn_app.
    replace (1 - length category) with 0 by lia.
    change (skipn 0 (lit "): " ++ W ++ Z)) with (lit "): " ++ W ++ Z).
    rewrite count_run_app.
    rewrite (count_run_all _ (Forall_skipn_chars _ 1 category_letters)).
    rewrite Nat.eqb_refl, length_skipn. cbn [lit list_ascii_of_string app count_run].
    change (is_letter ")") with false. cbv iota. lia. }
  rewrite C, try_down_top.
  - rewrite close_point, run_Seq, run_lits_point.
    change (pos (point line 9 cs)) with 9.
    replace (10 + (length category - 1)) with (p1 + 0) by (unfold p1; lia).
    rewrite line_at_p1. change (skipn 0 (lit "): " ++ W ++ Z)) with (lit "): " ++ W ++ Z).
    rewrite lit_prefix_self. rewrite Nat.add_0_r. reflexivity.
  - right. intros j' Hj. rewrite close_point, run_Seq, run_lits_point.
    destruct (N (S j')) as [x [Hx Hl]]; [lia|].
    replace (10 + j') with (9 + S j') by lia.
    rewrite (@skipn_nth_cons _ _ _ Hx).
    cbn [lit list_ascii_of_string lit_prefix lit_eq].
    destruct (Ascii.eqb_spec x ")") as [->|]; [discriminate|reflexivity].
Qed.

(** a header line matches, and its groups are the category, the lemma and
    the gloss *)
Lemma header_match :
  exists m,
    re_match false CONCEPT_REGEX line = Some m
    /\ span 1 (caps m) = Some (9, p1)
    /\ span 2 (caps m) = Some (p2, p2 + length W)
    /\ span 3 (caps m)
       = match g with
         | Some gl => Some (p2 + length W + 3, p2 + length W + 3 + length gl)
         | None => None
         end.
Proof.
  unfold re_match, CONCEPT_REGEX.
  change (start_of line) with (point line 0 []).
  rewrite run_Seq, run_Bol. change (pos (point line 0 []) =? 0) with true.
  cbv iota. rewrite run_Seq, run_lits_point.
  change (skipn 0 line)
    with (lit "Concept (" ++ category ++ lit "): " ++ W ++ Z).
  rewrite lit_prefix_self. change (0 + length (lit "Concept (")) with 9.
  rewrite category_group. fold TAIL. rewrite lemma_group.
  destruct (option_case g) as [G|[gl G]].
  - rewrite (tail_plain _ G). eexists. split; [reflexivity|]. rewrite G. auto.
  - rewrite (tail_gloss _ G). eexists. split; [reflexivity|]. rewrite G. auto.
Qed.

End Header.

Lemma rindex_sense (stem : str) (tag : ascii) :
  is_capital tag = true ->
  rindex "-" (stem ++ ["-"%char; tag]) = Some (length stem).
Proof.
  intros H. induction stem as [|x t IH]; cbn [app rindex length].
  - destruct (Ascii.eqb_spec tag "-") as [->|]; [discriminate|reflexivity].
  - now rewrite IH.
Qed.

Lemma firstn_exact (a b : str) : firstn (length a) (a ++ b) = a.
Proof.
  rewrite firstn_app, Nat.sub_diag, firstn_all. cbn [firstn]. apply app_nil_r.
Qed.

(** C3: on a line of the header grammar (a category of letters in
    parentheses, a lemma of letters, digits, hyphens, spaces and dots that
    ends in a hyphen and one capital letter, then possibly a gloss in
    quotes) the parser reads that category, that lemma with its sense and
    that gloss, opens a concept with them, and the base form of the
    lemma is the text before its last hyphen. *)
Theorem header_extraction (category stem : str) (tag : ascii) (g : option str)
    (eol : str) :
  Forall (fun x => is_letter x = true) category -> category <> [] ->
  Forall (fun x => is_lemma_char x = true) stem -> stem <> [] ->
  is_capital tag = true ->
  match g with
  | Some gl => gl <> [] /\ Forall (fun x => not_newline x = true) gl
  | None => True
  end ->
  eol = [] \/ eol = ["010"%char] ->
  let lemma := stem ++ ["-"%char; tag] in
  let meaning := match g with Some gl => gl | None => [] end in
  let line := header_line category stem tag g eol in
  match_concept line = Some (category, lemma, meaning)
  /\ (forall line_num e,
         import_line line_num line e
         = Ok (mkEnv (heap e ++ [mkConcept (group_key category lemma) lemma
                                           meaning [] []])
                     (Some (length (heap e))) (groups e) (passage e)
                     (printed e)))
  /\ base_form lemma = Ok stem
  /\ rindex "-" lemma = Some (length stem).
Proof.
  intros H1 H2 H3 H4 H5 H6 H7 lemma meaning line.
  assert (M : match_concept line = Some (category, lemma, meaning)).
  { destruct (@header_match category stem tag g eol H1 H2 H3 H4 H5 H6 H7) as [m [Hm [S1 [S2 S3]]]].
    unfold match_concept. fold line in Hm. rewrite Hm.
    unfold group_text. rewrite S1, S2, S3.
    assert (G1 : slice line 9 (9 + length category) = category).
    { unfold slice, line.
      replace (9 + length category - 9) with (length category) by lia.
      rewrite <- (Nat.add_0_r 9) at 1. rewrite line_at_9.
      apply firstn_exact. }
    assert (G2 : slice line (9 + length category + 3)
                       (9 + length category + 3 + length lemma) = lemma).
    { unfold slice, line.
      replace (9 + length category + 3 + length lemma
               - (9 + length category + 3)) with (length lemma) by lia.
      rewrite <- (Nat.add_0_r (9 + length category + 3)) at 1.
      rewrite line_at_p2. apply firstn_exact. }
    fold lemma. rewrite G1, G2.
    destruct g as [gl|]; [|reflexivity].
    assert (G3 : slice line (9 + length category + 3 + length lemma + 3)
                       (9 + length category + 3 + length lemma + 3 + length gl)
                 = gl).
    { unfold slice, line.
      replace (9 + length category + 3 + length lemma + 3 + length gl
               - (9 + length category + 3 + length lemma + 3))
        with (length gl) by lia.
      unfold lemma. rewrite line_at_end. cbn [quoted].
      change (skipn 3 ((lit "  '" ++ gl ++ lit "'") ++ eol))
        with ((gl ++ lit "'") ++ eol).
      now rewrite <- app_assoc, firstn_exact. }
    now rewrite G3. }
  split; [exact M|]. split.
  - intros line_num e. unfold import_line.
    replace (startswith line (lit "Concept")) with true by reflexivity.
    now rewrite M.
  - unfold base_form, lemma. rewrite rindex_sense by auto. cbn [or_raise bind].
    now rewrite firstn_exact.
Qed.

Lemma header_extraction_witness :
  match_concept (lit "Concept (Verb): walk-A  'to go on foot'")
  = Some (lit "Verb", lit "walk-A", lit "to go on foot")
  /\ (forall line_num e,
         import_line line_num (lit "Concept (Verb): walk-A  'to go on foot'") e
         = Ok (mkEnv (heap e ++ [mkConcept (lit "Verbs") (lit "walk-A")
                                           (lit "to go on foot") [] []])
                     (Some (length (heap e))) (groups e) (passage e)
                     (printed e)))
  /\ base_form (lit "walk-A") = Ok (lit "walk")
  /\ rindex "-" (lit "walk-A") = Some 4.
Proof.
  apply (@header_extraction (lit "Verb") (lit "walk") "A"
           (Some (lit "to go on foot")) []).
  - repeat constructor.
  - discriminate.
  - repeat constructor.
  - discriminate.
  - reflexivity.
  - split; [discriminate|repeat constructor].
  - left. reflexivity.
Defined.

(** ** The record parser *)





(** lines that are not headers *)
Lemma starts_sample (l : str) :
  startswith l (lit "Sample Sentence:") = true ->
  startswith l (lit "Concept") = false
  /\ startswith l (lit "Sample Sentence") = true.
Proof.
  intros H.
  repeat (destruct l as [|?c l]; [discriminate H|];
          cbn [startswith lit list_ascii_of_string] in H;
          apply andb_true_iff in H; destruct H as [?H H]).
  repeat match goal with
         | E : Ascii.eqb _ _ = true |- _ => apply Ascii.eqb_eq in E; subst
         end.
  split; reflexivity.
Qed.

Lemma starts_verse (l : str) :
  startswith l (lit "Verse:") = true ->
  startswith l (lit "Concept") = false
  /\ startswith l (lit "Sample Sentence") = false
  /\ startswith l (lit "Verse") = true.
Proof.
  intros H.
  repeat (destruct l as [|?c l]; [discriminate H|];
          cbn [startswith lit list_ascii_of_string] in H;
          apply andb_true_iff in H; destruct H as [?H H]).
  repeat match goal with
         | E : Ascii.eqb _ _ = true |- _ => apply Ascii.eqb_eq in E; subst
         end.
  repeat split; reflexivity.
Qed.

Lemma orphan_field_raises (line_num : nat) (l : str) (e : env) :
  concept e = None ->
  startswith l (lit "Sample Sentence:") = true
  \/ startswith l (lit "Verse:") = true ->
  import_line line_num l e = Raise AttributeError.
Proof.
  intros Hc [H|H]; unfold import_line.
  - destruct (starts_sample l H) as [H1 H2]. now rewrite H1, H2, Hc.
  - destruct (starts_verse l H) as [H1 [H2 H3]]. now rewrite H1, H2, H3, Hc.
Qed.

Lemma no_header_no_concept (line_num : nat) (l : str) (e : env) :
  concept e = None -> match_concept l = None ->
  import_line line_num l e = Raise AttributeError
  \/ exists e', import_line line_num l e = Ok e' /\ concept e' = None.
Proof.
  intros Hc Hm. unfold import_line. rewrite Hm, Hc.
  destruct (startswith l (lit "Concept")); [right; eauto|].
  destruct (startswith l (lit "Sample Sentence")); [now left|].
  destruct (startswith l (lit "Verse")); [now left|].
  destruct (startswith l (lit "Current Passage")); right; eauto.
Qed.

(** C9: when a "Sample Sentence:" or a "Verse:" line comes before any
    header line has been read with success, the parser ends with an
    AttributeError: there is no record to take the field. *)
Theorem orphan_field_aborts (before_ after_ : list str) (l : str) :
  (forall x, In x before_ -> match_concept x = None) ->
  startswith l (lit "Sample Sentence:") = true
  \/ startswith l (lit "Verse:") = true ->
  import_concepts (before_ ++ l :: after_) = Raise AttributeError.
Proof.
  intros Hb Hl. unfold import_concepts.
  assert (L : forall n e, concept e = None ->
                import_loop n (before_ ++ l :: after_) e = Raise AttributeError).
  { induction before_ as [|x t IH]; intros n e Hc; cbn [app import_loop].
    - now rewrite orphan_field_raises.
    - destruct (@no_header_no_concept n x e Hc (Hb x (or_introl eq_refl)))
        as [R|[e' [R Hc']]]; rewrite R; cbn [bind]; auto.
      apply IH; auto. intros y Hy. apply Hb. now right. }
  now rewrite L.
Qed.

Lemma orphan_field_aborts_witness :
  import_concepts ([lit "Current Passage: Mark 1" ++ nl; lit "Concept : badformat" ++ nl]
                   ++ (lit "Verse: Mark 1:1 The dog ran." ++ nl)
                   :: [lit "Concept (Noun): dog-A" ++ nl])
  = Raise AttributeError.
Proof.
  apply (@orphan_field_aborts
           [lit "Current Passage: Mark 1" ++ nl; lit "Concept : badformat" ++ nl]
           [lit "Concept (Noun): dog-A" ++ nl]
           (lit "Verse: Mark 1:1 The dog ran." ++ nl)).
  - intros x [<-|[<-|[]]]; vm_compute; reflexivity.
  - right. reflexivity.
Defined.

(** ** Records and groups *)

Lemma length_update (i : nat) (f : UnlinkedConcept -> UnlinkedConcept)
    (h : list UnlinkedConcept) : length (update i f h) = length h.
Proof.
  revert i. induction h as [|c h IH]; intros [|i]; simpl; auto.
Qed.


Lemma str_eqb_eq (a b : str) : str_eqb a b = true -> a = b.
Proof.
  revert b. induction a as [|x a IH]; intros [|y b]; simpl; try discriminate; auto.
  rewrite andb_true_iff, Ascii.eqb_eq. intros [-> H]. f_equal. auto.
Qed.

(** where a member of a list of [dict_append g x d] comes from *)
Lemma dict_append_member (g k : str) (x y : nat) (ids : list nat)
    (d : list (str * list nat)) :
  In (k, ids) (dict_append g x d) -> In y ids ->
  (exists ids0, In (k, ids0) d /\ In y ids0) \/ (y = x /\ k = g).
Proof.
  induction d as [|[k0 v0] d IH]; cbn [dict_append].
  - intros [E|[]] Hy. inversion E; subst.
    destruct Hy as [<-|[]]. now right.
  - destruct (str_eqb k0 g) eqn:K.
    + intros [E|Hin] Hy.
      * inversion E; subst. apply in_app_or in Hy.
        destruct Hy as [Hy|[<-|[]]].
        -- left. exists v0. split; [now left|assumption].
        -- right. split; auto. now apply str_eqb_eq.
      * left. exists ids. split; [now right|assumption].
    + intros [E|Hin] Hy.
      * left. exists ids. split; [now left|assumption].
      * destruct (IH Hin Hy) as [[ids0 [H1 H2]]|H]; auto.
        left. exists ids0. split; [now right|assumption].
Qed.

Lemma dict_append_in (g : str) (x y : nat) (d : list (str * list nat)) :
  (exists k ids, In (k, ids) (dict_append g x d) /\ In y ids) ->
  y = x \/ exists k ids, In (k, ids) d /\ In y ids.
Proof.
  intros [k [ids [H1 H2]]].
  destruct (@dict_append_member g k x y ids d H1 H2) as [[ids0 H]|[H _]]; eauto.
Qed.

Lemma startswith_prefix (s p : str) : startswith s p = lit_prefix false p s.
Proof.
  revert s. induction p as [|c p IH]; intros [|x s]; simpl; auto.
  now rewrite IH.
Qed.

Lemma header_starts (l : str) :
  match_concept l <> None -> startswith l (lit "Concept") = true.
Proof.
  unfold match_concept, re_match, CONCEPT_REGEX.
  change (start_of l) with (point l 0 []).
  rewrite run_Seq, run_Bol. change (pos (point l 0 []) =? 0) with true.
  cbv iota. rewrite run_Seq, run_lits_point. change (skipn 0 l) with l.
  rewrite startswith_prefix.
  change (lit "Concept (") with (lit "Concept" ++ lit " (").
  rewrite lit_prefix_app.
  destruct (lit_prefix false (lit "Concept") l); [reflexivity|].
  cbn [andb]. congruence.
Qed.

Lemma wf_init : wf init.
Proof.
  split.
  - discriminate.
  - intros id [k [ids [[] _]]].
Qed.

Lemma import_line_wf (n : nat) (l : str) (e e' : env) :
  wf e -> import_line n l e = Ok e' ->
  wf e' /\ length (heap e) <= length (heap e').
Proof.
  intros [W1 W2]. unfold import_line.
  destruct (startswith l (lit "Concept")).
  { destruct (match_concept l) as [[[c w] gl]|]; intros E; inversion E; subst;
      clear E.
    - split; [split|]; cbn [heap concept]; rewrite ?length_app; cbn [length].
      + intros id H. inversion H. lia.
      + intros id H. apply W2 in H. lia.
      + lia.
    - split; [split|]; auto. }
  destruct (startswith l (lit "Sample Sentence")).
  { destruct (concept e) as [id0|] eqn:C; intros E; inversion E; subst; clear E.
    (split; [split|]); cbn [heap concept groups]; rewrite ?length_update; auto. }
  destruct (startswith l (lit "Verse")).
  { destruct (concept e) as [id0|] eqn:C; [|discriminate].
    destruct (nth_error _ id0) as [c|] eqn:N; intros E; inversion E; subst; clear E.
    (split; [split|]); cbn [heap concept groups]; rewrite ?length_update; auto.
    intros id H. unfold in_groups in H. cbn [groups] in H.
    apply dict_append_in in H. destruct H as [->|H]; auto. }
  destruct (startswith l (lit "Current Passage")); intros E; inversion E; subst;
    (split; [split|]); auto.
Qed.

Lemma import_loop_wf (lines : list str) (n : nat) (e e' : env) :
  wf e -> import_loop n lines e = Ok e' -> wf e'.
Proof.
  revert n e. induction lines as [|l t IH]; intros n e W; cbn [import_loop].
  - intros E. now inversion E; subst.
  - destruct (import_line n l e) as [e1|] eqn:L; cbn [bind]; [|discriminate].
    apply IH. eapply import_line_wf; eauto.
Qed.











(** ** Inputs on which the code leaves the stated behaviour *)

(** C7 fails on [names_input]: the table of the common nouns is sorted by
    lemma, the table of the proper nouns keeps the order of the input. *)
Theorem proper_names_unsorted :
  exists e title names nouns,
    import_concepts names_input = Ok e
    /\ export_document e false = Ok (title, [names; nouns])
    /\ caption names = lit "Proper Names"
    /\ words_of names = [lit "Zion-A"; lit "Adam-A"]
    /\ str_leb (lit "Zion-A") (lit "Adam-A") = false
    /\ caption nouns = lit "Nouns"
    /\ words_of nouns = [lit "apple-A"; lit "zebra-A"].
Proof.
  do 4 eexists. split; [vm_compute; reflexivity|].
  split; [vm_compute; reflexivity|]. repeat split.
Qed.

(** ** The order of the rows *)

Lemma str_leb_total (a b : str) : str_leb a b = false -> str_leb b a = true.
Proof.
  revert b. induction a as [|x a IH]; intros [|y b]; simpl; auto; try discriminate.
  destruct (code x <? code y) eqn:L1; [discriminate|].
  destruct (code y <? code x) eqn:L2; auto.
Qed.

Lemma insert_by_word_perm (c : UnlinkedConcept) (l : list UnlinkedConcept) :
  Permutation (insert_by_word c l) (c :: l).
Proof.
  induction l as [|d l IH]; simpl; auto.
  destruct (str_leb (word c) (word d)); auto.
  rewrite IH. apply perm_swap.
Qed.

Lemma insert_by_word_sorted (c : UnlinkedConcept) (l : list UnlinkedConcept) :
  Sorted word_le l -> Sorted word_le (insert_by_word c l).
Proof.
  induction 1 as [|d l Hs IH Hd]; simpl.
  - repeat constructor.
  - destruct (str_leb (word c) (word d)) eqn:E.
    + constructor; [now constructor|]. now constructor.
    + constructor; auto. apply str_leb_total in E.
      destruct l as [|d' l]; simpl.
      * now constructor.
      * inversion Hd; subst.
        destruct (str_leb (word c) (word d')); now constructor.
Qed.

(** what [sorted] gives: the same concepts, in the order of their lemmas *)
Lemma sorted_by_word_spec (l : list UnlinkedConcept) :
  Sorted word_le (sorted_by_word l) /\ Permutation (sorted_by_word l) l.
Proof.
  induction l as [|c l [IH1 IH2]]; simpl.
  - split; constructor.
  - split; [now apply insert_by_word_sorted|].
    rewrite insert_by_word_perm. now constructor.
Qed.

Lemma table_rows_words (l : list UnlinkedConcept) (rs : list Row) :
  table_rows l = Ok rs -> map cell_word rs = map word l.
Proof.
  revert rs. induction l as [|c l IH]; intros rs; cbn [table_rows].
  - intros E. now inversion E.
  - destruct (add_verse_sentences c); cbn [bind]; [|discriminate].
    destruct (table_rows l) as [rs'|]; cbn [bind]; [|discriminate].
    intros E. inversion E; subst. cbn [map cell_word]. f_equal. now apply IH.
Qed.

(** the rows of a table of [create_table] are sorted by lemma *)
Lemma create_table_sorted (name : str) (gs : list (str * list UnlinkedConcept))
    (idx idx' : nat) (notes : bool) (t : Table) (l : list UnlinkedConcept) :
  lookup name gs = Some l ->
  create_table name gs idx notes = Ok (Some t, idx') ->
  words_of t = map word (sorted_by_word l).
Proof.
  intros Hl. unfold create_table. rewrite Hl.
  destruct (table_rows (sorted_by_word l)) as [rs|] eqn:R; cbn [bind];
    [|discriminate].
  intros E. inversion E; subst. now apply table_rows_words.
Qed.

(** the rows of the table of [create_names_tables] are in the order of the
    input *)
Lemma create_names_tables_order (gs : list (str * list UnlinkedConcept))
    (l : list UnlinkedConcept) :
  lookup (lit "Proper Nouns") gs = Some l ->
  option_map words_of (fst (create_names_tables gs)) = Some (map word l).
Proof.
  intros Hl. unfold create_names_tables. rewrite Hl. cbn [fst option_map].
  unfold words_of. cbn [rows]. now rewrite map_map.
Qed.

(** ** Records that are closed once *)











(** * Further properties of the parser, the locator and the export *)

(** ** What the header pattern accepts *)

Lemma try_down_some (s : str) cs (k : cont) (i j : nat) (r : state) :
  try_down s cs k i j = Some r ->
  exists j', j' <= j /\ k (point s (i + j') cs) = Some r.
Proof.
  induction j as [|j IH]; cbn [try_down].
  - intros H. exists 0. rewrite Nat.add_0_r. auto.
  - destruct (k (point s (i + S j) cs)) as [r'|] eqn:E; cbn [orelse].
    + intros H. exists (S j). split; [lia|]. congruence.
    + intros H. destruct (IH H) as [j' [Hj Hk]]. exists j'. split; [lia|exact Hk].
Qed.

Lemma try_up_some (s : str) cs (k : cont) (i j : nat) (r : state) :
  try_up s cs k i j = Some r ->
  exists j', j' <= j /\ k (point s (i + j') cs) = Some r.
Proof.
  revert i. induction j as [|j IH]; intros i; cbn [try_up].
  - intros H. exists 0. rewrite Nat.add_0_r. auto.
  - destruct (k (point s i cs)) as [r'|] eqn:E; cbn [orelse].
    + intros H. exists 0. rewrite Nat.add_0_r. split; [lia|]. congruence.
    + intros H. destruct (IH (S i) H) as [j' [Hj Hk]].
      exists (S j'). split; [lia|]. now rewrite Nat.add_succ_r.
Qed.

Lemma lit_prefix_eq (w t : str) :
  lit_prefix false w t = true -> t = w ++ skipn (length w) t.
Proof.
  revert t. induction w as [|c w IH]; intros t; simpl; auto.
  destruct t as [|x t]; [discriminate|].
  rewrite andb_true_iff. unfold lit_eq. rewrite Ascii.eqb_eq.
  intros [-> H]. f_equal. auto.
Qed.

Lemma firstn_run (p : ascii -> bool) (t : str) (j : nat) :
  j <= count_run p t -> Forall (fun x => p x = true) (firstn j t).
Proof.
  revert j. induction t as [|x t IH]; intros [|j] H; simpl in *; auto; try lia.
  destruct (p x) eqn:P; [|lia]. constructor; auto. apply IH. lia.
Qed.

Lemma code_newline (c : ascii) : (code c =? 10) = true -> c = "010"%char.
Proof.
  intros H. apply Nat.eqb_eq in H. unfold code in H.
  rewrite <- (ascii_nat_embedding c), H. reflexivity.
Qed.

Lemma at_eol_rest (s : str) (i : nat) cs :
  at_eol (point s i cs) = true -> skipn i s = [] \/ skipn i s = nl.
Proof.
  unfold at_eol. change (rest (point s i cs)) with (skipn i s).
  destruct (skipn i s) as [|c [|d t]]; auto; [|discriminate].
  intros H. right. now rewrite (code_newline c H).
Qed.

(** the end of an accepted header: nothing, or a gloss in quotes, and then
    the end of the line *)
Lemma tail_sound (s : str) (r : nat) cs (m : state) :
  run false TAIL (point s r cs) Some = Some m ->
  exists g eol,
    skipn r s = quoted g ++ eol
    /\ (eol = [] \/ eol = nl)
    /\ match g with
       | Some gl => gl <> [] /\ Forall (fun x => not_newline x = true) gl
                    /\ span 3 (caps m) = Some (r + 3, r + 3 + length gl)
       | None => caps m = cs
       end
    /\ (forall n, n <> 3 -> span n (caps m) = span n cs).
Proof.
  unfold TAIL, Opt. rewrite run_Seq, run_Alt.
  destruct (run false (lits (lit "  '") +++ _) (point s r cs) _) as [m'|] eqn:G;
    cbn [orelse].
  - intros E. inversion E; subst m'. clear E.
    rewrite run_Seq, run_lits_point in G.
    destruct (lit_prefix false (lit "  '") (skipn r s)) eqn:P; [|discriminate].
    change (length (lit "  '")) with 3 in G.
    unfold Plus in G. rewrite run_Seq, run_Group, run_Seq, run_class_point in G.
    destruct (nth_error s (r + 3)) as [y0|] eqn:N0; [|discriminate].
    destruct (not_newline y0) eqn:Hy0; [|discriminate].
    rewrite run_Star in G.
    change (rest (point s (S (r + 3)) cs)) with (skipn (S (r + 3)) s) in G.
    rewrite star_lazy in G by (rewrite length_skipn; lia).
    apply try_up_some in G. destruct G as [j [Hj G]].
    cbv beta in G. rewrite close_point, run_lit_point in G.
    destruct (nth_error s (S (r + 3) + j)) as [q|] eqn:Nq; [|discriminate].
    destruct (lit_eq false q "'") eqn:Hq; [|discriminate].
    rewrite run_eol_point in G.
    destruct (at_eol _) eqn:Ae in G; [|discriminate].
    inversion G; subst m. clear G.
    apply at_eol_rest in Ae.
    unfold lit_eq in Hq. apply Ascii.eqb_eq in Hq. subst q.
    set (gl := y0 :: firstn j (skipn (S (r + 3)) s)).
    exists (Some gl), (skipn (S (S (r + 3) + j)) s).
    assert (Lg : length gl = S j).
    { unfold gl. cbn [length]. rewrite firstn_length_le; auto.
      pose proof (count_run_le not_newline (skipn (S (r + 3)) s)). lia. }
    split; [|split; [exact Ae|split; [split; [discriminate|split]|]]].
    + apply lit_prefix_eq in P. rewrite P at 1. cbn [quoted].
      change (length (lit "  '")) with 3. rewrite skipn_skipn.
      rewrite (Nat.add_comm 3 r), <- !app_assoc.
      f_equal. rewrite (@skipn_nth_cons s (r + 3) y0 N0).
      unfold gl. cbn [app]. f_equal.
      rewrite <- (firstn_skipn j (skipn (S (r + 3)) s)) at 1.
      f_equal.
      rewrite skipn_skipn, (Nat.add_comm j).
      now rewrite (@skipn_nth_cons s (S (r + 3) + j) "'"%char Nq).
    + unfold gl. constructor; auto. now apply firstn_run.
    + cbn [caps point]. cbn [span]. rewrite Nat.eqb_refl.
      change (pos (point s (r + 3) cs)) with (r + 3). rewrite Lg.
      repeat f_equal. lia.
    + intros n Hn. cbn [caps point span].
      destruct (Nat.eqb_spec 3 n); [congruence|reflexivity].
  - cbn [run]. destruct (at_eol (point s r cs)) eqn:Ae; [|discriminate].
    intros E. inversion E; subst m.
    exists None, (skipn r s). cbn [quoted app].
    split; [reflexivity|]. split; [now apply at_eol_rest with (cs := cs)|].
    split; reflexivity.
Qed.

Lemma skipn_run (s : str) (i j : nat) :
  skipn i s = firstn j (skipn i s) ++ skipn (i + j) s.
Proof.
  rewrite <- (firstn_skipn j (skipn i s)) at 1.
  now rewrite skipn_skipn, (Nat.add_comm j i).
Qed.

Lemma slice_at (s a b : str) (i : nat) :
  skipn i s = a ++ b -> slice s i (i + length a) = a.
Proof.
  intros H. unfold slice. rewrite H.
  replace (i + length a - i) with (length a) by lia. apply firstn_exact.
Qed.

Lemma header_parts (line cat w gl : str) :
  match_concept line = Some (cat, w, gl) ->
  exists stem tag g eol,
    line = header_line cat stem tag g eol
    /\ w = stem ++ ["-"%char; tag]
    /\ gl = match g with Some x => x | None => [] end
    /\ Forall (fun x => is_letter x = true) cat /\ cat <> []
    /\ Forall (fun x => is_lemma_char x = true) stem /\ stem <> []
    /\ is_capital tag = true
    /\ match g with
       | Some x => x <> [] /\ Forall (fun c => not_newline c = true) x
       | None => True
       end
    /\ (eol = [] \/ eol = nl).
Proof.
  unfold match_concept, re_match.
  destruct (run false CONCEPT_REGEX (start_of line) Some) as [m|] eqn:R;
    [|discriminate].
  change (start_of line) with (point line 0 []) in R.
  unfold CONCEPT_REGEX in R. fold TAIL in R.
  rewrite run_Seq, run_Bol in R.
  change (pos (point line 0 []) =? 0) with true in R. cbv iota in R.
  rewrite run_Seq, run_lits_point in R. change (skipn 0 line) with line in R.
  destruct (lit_prefix false (lit "Concept (") line) eqn:P0; [|discriminate].
  change (0 + length (lit "Concept (")) with 9 in R.
  unfold Plus in R.
  rewrite run_Seq, run_Group, run_Seq, run_class_point in R.
  destruct (nth_error line 9) as [x|] eqn:N9; [|discriminate].
  destruct (is_letter x) eqn:Lx; [|discriminate].
  rewrite run_Star in R.
  change (rest (point line 10 [])) with (skipn 10 line) in R.
  rewrite star_greedy in R by (rewrite length_skipn; lia).
  apply try_down_some in R. destruct R as [j1 [Hj1 R]].
  cbv beta in R. rewrite close_point, run_Seq, run_lits_point in R.
  change (pos (point line 9 [])) with 9 in R.
  destruct (lit_prefix false (lit "): ") (skipn (10 + j1) line)) eqn:PQ;
    [|discriminate].
  change (length (lit "): ")) with 3 in R.
  set (p2 := 10 + j1 + 3) in *.
  rewrite run_Seq, run_Group, !run_Seq, run_class_point in R.
  destruct (nth_error line p2) as [y|] eqn:Ny; [|discriminate].
  destruct (is_lemma_char y) eqn:Ly; [|discriminate].
  rewrite run_Star in R.
  match type of R with
  | context [rest (point line (S p2) ?c)] =>
      change (rest (point line (S p2) c)) with (skipn (S p2) line) in R
  end.
  rewrite star_lazy in R by (rewrite length_skipn; lia).
  apply try_up_some in R. destruct R as [j2 [Hj2 R]].
  cbv beta in R. rewrite run_Seq, run_lit_point in R.
  destruct (nth_error line (S p2 + j2)) as [d|] eqn:Nd; [|discriminate].
  destruct (lit_eq false d "-") eqn:Hd; [|discriminate].
  rewrite run_class_point in R.
  destruct (nth_error line (S (S p2 + j2))) as [tag|] eqn:Nt; [|discriminate].
  destruct (is_capital tag) eqn:Ht; [|discriminate].
  rewrite close_point in R.
  match type of R with
  | context [pos (point line p2 ?c)] =>
      change (pos (point line p2 c)) with p2 in R
  end.
  set (q := S (S (S p2 + j2))) in *.
  apply tail_sound in R.
  destruct R as [g [eol [Hz [He [Hg Hs]]]]].
  unfold lit_eq in Hd. apply Ascii.eqb_eq in Hd. subst d.
  set (cat0 := x :: firstn j1 (skipn 10 line)).
  set (stem := y :: firstn j2 (skipn (S p2) line)).
  assert (Lc : length cat0 = S j1).
  { unfold cat0. cbn [length]. rewrite firstn_length_le; auto.
    pose proof (count_run_le is_letter (skipn 10 line)). lia. }
  assert (Ls : length stem = S j2).
  { unfold stem. cbn [length]. rewrite firstn_length_le; auto.
    pose proof (count_run_le is_lemma_char (skipn (S p2) line)). lia. }
  assert (E9 : skipn 9 line = cat0 ++ skipn (10 + j1) line).
  { rewrite (@skipn_nth_cons line 9 x N9). unfold cat0. cbn [app]. f_equal.
    apply skipn_run. }
  assert (Ep : skipn p2 line = (stem ++ ["-"%char; tag]) ++ skipn q line).
  { rewrite (@skipn_nth_cons line p2 y Ny). unfold stem. cbn [app]. f_equal.
    rewrite <- app_assoc. rewrite (skipn_run line (S p2) j2) at 1. f_equal.
    rewrite (@skipn_nth_cons line (S p2 + j2) "-"%char Nd). cbn [app]. f_equal.
    now rewrite (@skipn_nth_cons line (S (S p2 + j2)) tag Nt). }
  assert (EQ : skipn (10 + j1) line = lit "): " ++ skipn p2 line).
  { apply lit_prefix_eq in PQ. rewrite PQ at 1. f_equal.
    rewrite skipn_skipn. change (length (lit "): ")) with 3.
    unfold p2. f_equal. lia. }
  assert (S1 : span 1 (caps m) = Some (9, 10 + j1)).
  { rewrite Hs by discriminate. reflexivity. }
  assert (S2 : span 2 (caps m) = Some (p2, q)).
  { rewrite Hs by discriminate. reflexivity. }
  assert (G1 : slice line 9 (10 + j1) = cat0).
  { replace (10 + j1) with (9 + length cat0) by lia. eapply slice_at; eauto. }
  assert (G2 : slice line p2 q = stem ++ ["-"%char; tag]).
  { replace q with (p2 + length (stem ++ ["-"%char; tag])).
    - eapply slice_at; eauto.
    - rewrite length_app, Ls. unfold q. cbn [length]. lia. }
  unfold group_text. rewrite S1, S2, G1, G2.
  intros E. inversion E as [[Hc Hw Hgl]]. clear E.
  exists stem, tag, g, eol.
  split; [|split; [reflexivity|split; [|split; [|split; [discriminate|
    split; [|split; [discriminate|split; [exact Ht|split; [|exact He]]]]]]]]].
  - unfold header_line. apply lit_prefix_eq in P0. rewrite P0 at 1.
    f_equal. change (length (lit "Concept (")) with 9.
    rewrite E9, <- app_assoc. f_equal. rewrite EQ. f_equal.
    rewrite Ep, Hz. now rewrite <- !app_assoc.
  - destruct g as [x0|].
    + destruct Hg as [_ [_ S3]]. rewrite S3.
      rewrite (@slice_at line x0 (lit "'" ++ eol) (q + 3)); auto.
      rewrite <- (Nat.add_comm 3 q), <- skipn_skipn, Hz. cbn [quoted].
      rewrite <- !app_assoc. reflexivity.
    + rewrite Hg. reflexivity.
  - unfold cat0. constructor; auto. now apply firstn_run.
  - unfold stem. constructor; auto. now apply firstn_run.
  - destruct g as [x0|]; [|exact I]. destruct Hg as [A [B _]]. auto.
Qed.

(** X1: a line that the header pattern accepts is a header line of the
    grammar: "Concept (", a category of letters, "): ", a stem of lemma
    characters, a hyphen and a capital, then possibly a gloss in quotes,
    and nothing else but the end of the line; and the three groups are
    the category, the lemma with its sense, and the gloss. *)
Theorem header_sound (line cat w gl : str) :
  match_concept line = Some (cat, w, gl) ->
  exists stem tag g eol,
    line = header_line cat stem tag g eol
    /\ w = stem ++ ["-"%char; tag]
    /\ gl = match g with Some x => x | None => [] end
    /\ Forall (fun x => is_letter x = true) cat /\ cat <> []
    /\ Forall (fun x => is_lemma_char x = true) stem /\ stem <> []
    /\ is_capital tag = true
    /\ match g with
       | Some x => x <> [] /\ Forall (fun c => not_newline c = true) x
       | None => True
       end
    /\ (eol = [] \/ eol = nl).
Proof. exact (@header_parts line cat w gl). Qed.

Lemma header_sound_witness :
  exists stem tag g eol,
    lit "Concept (Noun): Mt. Zion-A  'the hill'" ++ nl
    = header_line (lit "Noun") stem tag g eol
    /\ lit "Mt. Zion-A" = stem ++ ["-"%char; tag]
    /\ lit "the hill" = match g with Some x => x | None => [] end
    /\ Forall (fun x => is_letter x = true) (lit "Noun") /\ lit "Noun" <> []
    /\ Forall (fun x => is_lemma_char x = true) stem /\ stem <> []
    /\ is_capital tag = true
    /\ match g with
       | Some x => x <> [] /\ Forall (fun c => not_newline c = true) x
       | None => True
       end
    /\ (eol = [] \/ eol = nl).
Proof.
  apply (@header_sound (lit "Concept (Noun): Mt. Zion-A  'the hill'" ++ nl)).
  vm_compute. reflexivity.
Defined.

(** ** What a run of the parser keeps *)

Lemma starts_verse_only (l : str) :
  startswith l (lit "Verse") = true ->
  startswith l (lit "Concept") = false
  /\ startswith l (lit "Sample Sentence") = false.
Proof.
  intros H. destruct l as [|c l]; [discriminate H|].
  cbn [startswith lit list_ascii_of_string] in H.
  apply andb_true_iff in H. destruct H as [H _].
  apply Ascii.eqb_eq in H. subst c. split; reflexivity.
Qed.

Lemma starts_passage_only (l : str) :
  startswith l (lit "Current Passage") = true ->
  startswith l (lit "Concept") = false
  /\ startswith l (lit "Sample Sentence") = false
  /\ startswith l (lit "Verse") = false.
Proof.
  intros H.
  do 2 (destruct l as [|?c l]; [discriminate H|];
        cbn [startswith lit list_ascii_of_string] in H;
        apply andb_true_iff in H; destruct H as [?H H]).
  repeat match goal with
         | E : Ascii.eqb _ _ = true |- _ => apply Ascii.eqb_eq in E; subst
         end.
  repeat split; reflexivity.
Qed.

Lemma map_label_update (i : nat) (f : UnlinkedConcept -> UnlinkedConcept)
    (h : list UnlinkedConcept) :
  (forall c, label (f c) = label c) ->
  map label (update i f h) = map label h.
Proof.
  intros Hf. revert i. induction h as [|c h IH]; intros [|i]; simpl; auto.
  - now rewrite Hf.
  - now rewrite IH.
Qed.

Lemma total_append (g : str) (x : nat) (d : list (str * list nat)) :
  total (dict_append g x d) = S (total d).
Proof.
  unfold total. induction d as [|[k v] d IH]; cbn [dict_append]; auto.
  destruct (str_eqb k g); simpl.
  - rewrite length_app. simpl. lia.
  - simpl in IH. rewrite IH. lia.
Qed.

(** one line: what it does to the records, the groups, the passage and
    the output *)
Lemma import_line_effect (n : nat) (l : str) (e e' : env) :
  import_line n l e = Ok e' ->
  map label (heap e')
  = map label (heap e)
    ++ match match_concept l with Some h => [header_label h] | None => [] end
  /\ total (groups e') = total (groups e) + (if is_verse_line l then 1 else 0)
  /\ passage e'
     = (if is_passage_line l then Some (strip (skipn 17 l)) else passage e)
  /\ printed e' = printed e ++ malformed n [l].
Proof.
  unfold import_line, is_verse_line, is_passage_line. cbn [malformed].
  destruct (startswith l (lit "Concept")) eqn:Sc.
  { assert (Sv : startswith l (lit "Verse") = false).
    { destruct (startswith l (lit "Verse")) eqn:V; auto.
      apply starts_verse_only in V. destruct V. congruence. }
    assert (Sp : startswith l (lit "Current Passage") = false).
    { destruct (startswith l (lit "Current Passage")) eqn:V; auto.
      apply starts_passage_only in V. destruct V. congruence. }
    rewrite Sv, Sp.
    destruct (match_concept l) as [[[c w] gl]|]; intros E; inversion E; subst;
      cbn [heap groups passage printed].
    - rewrite map_app, !app_nil_r. repeat split; auto.
    - rewrite !app_nil_r. repeat split; auto. }
  assert (Hm : match_concept l = None).
  { destruct (match_concept l) eqn:M; auto.
    rewrite header_starts in Sc by congruence. discriminate. }
  rewrite Hm.
  destruct (startswith l (lit "Sample Sentence")) eqn:Ss.
  { assert (Sv : startswith l (lit "Verse") = false).
    { destruct (startswith l (lit "Verse")) eqn:V; auto.
      apply starts_verse_only in V. destruct V. congruence. }
    assert (Sp : startswith l (lit "Current Passage") = false).
    { destruct (startswith l (lit "Current Passage")) eqn:V; auto.
      apply starts_passage_only in V. destruct V as [_ [V _]]. congruence. }
    rewrite Sv, Sp.
    destruct (concept e); intros E; inversion E; subst;
      cbn [heap groups passage printed].
    rewrite map_label_update, !app_nil_r by reflexivity. repeat split; auto. }
  destruct (startswith l (lit "Verse")) eqn:Sv.
  { assert (Sp : startswith l (lit "Current Passage") = false).
    { destruct (startswith l (lit "Current Passage")) eqn:V; auto.
      apply starts_passage_only in V. destruct V as [_ [_ V]]. congruence. }
    rewrite Sp.
    destruct (concept e) as [id|]; [|discriminate].
    destruct (nth_error _ id) as [c|]; intros E; inversion E; subst;
      cbn [heap groups passage printed].
    rewrite map_label_update, !app_nil_r by reflexivity. repeat split; auto.
    rewrite total_append. lia. }
  destruct (startswith l (lit "Current Passage")); intros E; inversion E; subst;
    cbn [heap groups passage printed]; rewrite !app_nil_r; repeat split; auto.
Qed.

Lemma import_loop_effect (lines : list str) (n : nat) (e e' : env) :
  import_loop n lines e = Ok e' ->
  map label (heap e')
  = map label (heap e) ++ map header_label (parsed_headers lines)
  /\ total (groups e')
     = total (groups e) + length (filter is_verse_line lines)
  /\ passage e'
     = fold_left (fun acc l => if is_passage_line l
                               then Some (strip (skipn 17 l)) else acc)
                 lines (passage e)
  /\ printed e' = printed e ++ malformed n lines.
Proof.
  revert n e. induction lines as [|l t IH]; intros n e; cbn [import_loop].
  - intros E. inversion E; subst. cbn. rewrite !app_nil_r. auto.
  - destruct (import_line n l e) as [e1|] eqn:L; cbn [bind]; [|discriminate].
    intros E. destruct (@import_line_effect n l e e1 L) as [A [B [C D]]].
    destruct (IH _ _ E) as [A' [B' [C' D']]].
    cbn [parsed_headers filter fold_left malformed].
    rewrite A', A, B', B, C', C, D', D. cbn [malformed].
    rewrite <- !app_assoc. cbn [app].
    split; [|split; [|split]]; auto.
    + f_equal. now destruct (match_concept l).
    + destruct (is_verse_line l); cbn [length]; lia.
Qed.

Lemma heap_labels (lines : list str) (e : env) :
  import_concepts lines = Ok e ->
  map label (heap e) = map header_label (parsed_headers lines)
  /\ passage e = last_passage lines.
Proof.
  unfold import_concepts.
  destruct (import_loop 0 lines init) as [e1|] eqn:L; cbn [bind]; [|discriminate].
  intros E. inversion E; subst. cbn [report heap passage].
  destruct (@import_loop_effect lines 0 init e1 L) as [A [_ [C _]]]. auto.
Qed.

(** X2: the records of a run are those of the header lines that parse, one
    for each, in the order of the lines, with the grouping key, the
    lemma and the gloss of their header: no later line changes these
    three fields or removes a record. *)
Theorem records_of_headers (lines : list str) (e : env) :
  import_concepts lines = Ok e ->
  map label (heap e) = map header_label (parsed_headers lines).
Proof.
  unfold import_concepts.
  destruct (import_loop 0 lines init) as [e1|] eqn:L; cbn [bind]; [|discriminate].
  intros E. inversion E; subst. cbn [report heap].
  now destruct (@import_loop_effect lines 0 init e1 L) as [A _].
Qed.

(** X3: what a run prints: a warning for each line that starts with
    "Concept" and does not parse, with the index of the line, in the
    order of the lines, and then one count for each group, in the order in
    which the groups were first used. *)
Theorem output_of_run (lines : list str) (e : env) :
  import_concepts lines = Ok e ->
  printed e = malformed 0 lines ++ counts (groups e).
Proof.
  unfold import_concepts.
  destruct (import_loop 0 lines init) as [e1|] eqn:L; cbn [bind]; [|discriminate].
  intros E. inversion E; subst. cbn [report printed groups].
  destruct (@import_loop_effect lines 0 init e1 L) as [_ [_ [_ D]]].
  now rewrite D.
Qed.

(** X4: the counts that a run reports add up to the number of lines that
    start with "Verse": every such line appends one reference, and no
    other line appends any. *)
Theorem counts_add_up (lines : list str) (e : env) :
  import_concepts lines = Ok e ->
  total (groups e) = length (filter is_verse_line lines).
Proof.
  unfold import_concepts.
  destruct (import_loop 0 lines init) as [e1|] eqn:L; cbn [bind]; [|discriminate].
  intros E. inversion E; subst. cbn [report groups].
  now destruct (@import_loop_effect lines 0 init e1 L) as [_ [B _]].
Qed.

(** X5: the passage label is the trimmed text of the last line that
    starts with "Current Passage", wherever it stands in the file; without
    such a line there is none. *)
Theorem passage_of_run (lines : list str) (e : env) :
  import_concepts lines = Ok e -> passage e = last_passage lines.
Proof.
  unfold import_concepts.
  destruct (import_loop 0 lines init) as [e1|] eqn:L; cbn [bind]; [|discriminate].
  intros E. inversion E; subst. cbn [report passage].
  now destruct (@import_loop_effect lines 0 init e1 L) as [_ [_ [C _]]].
Qed.

Lemma records_of_headers_witness :
  exists e, import_concepts names_input = Ok e
            /\ map label (heap e) = map header_label (parsed_headers names_input).
Proof.
  eexists. split; [vm_compute; reflexivity|].
  apply records_of_headers. vm_compute. reflexivity.
Defined.

Lemma output_of_run_witness :
  exists e, import_concepts bad_header_input = Ok e
            /\ printed e = malformed 0 bad_header_input ++ counts (groups e).
Proof.
  eexists. split; [vm_compute; reflexivity|].
  apply output_of_run. vm_compute. reflexivity.
Defined.

Lemma counts_add_up_witness :
  exists e, import_concepts bad_header_input = Ok e
            /\ total (groups e) = length (filter is_verse_line bad_header_input).
Proof.
  eexists. split; [vm_compute; reflexivity|].
  apply counts_add_up. vm_compute. reflexivity.
Defined.

Lemma passage_of_run_witness :
  exists e, import_concepts names_input = Ok e
            /\ passage e = last_passage names_input.
Proof.
  eexists. split; [vm_compute; reflexivity|].
  apply passage_of_run. vm_compute. reflexivity.
Defined.

(** ** Groups *)

Lemma import_line_groups (n : nat) (l : str) (e e' : env) :
  import_line n l e = Ok e' ->
  groups e' = groups e
  \/ exists id c, nth_error (heap e') id = Some c
                  /\ groups e' = dict_append (group c) id (groups e).
Proof.
  unfold import_line.
  destruct (startswith l (lit "Concept")).
  { destruct (match_concept l) as [[[c w] gl]|]; intros E; inversion E; auto. }
  destruct (startswith l (lit "Sample Sentence")).
  { destruct (concept e); intros E; inversion E; auto. }
  destruct (startswith l (lit "Verse")).
  { destruct (concept e) as [id|]; [|discriminate].
    destruct (nth_error _ id) as [c|] eqn:N; intros E; inversion E; subst.
    right. exists id, c. auto. }
  destruct (startswith l (lit "Current Passage")); intros E; inversion E; auto.
Qed.

Lemma keyed_line (n : nat) (l : str) (e e' : env) :
  keyed e -> import_line n l e = Ok e' -> keyed e'.
Proof.
  intros K L.
  destruct (@import_line_effect n l e e' L) as [A _].
  assert (Keep : forall id c, nth_error (heap e) id = Some c ->
                   exists c', nth_error (heap e') id = Some c'
                              /\ group c' = group c).
  { intros id c N.
    assert (M : nth_error (map label (heap e')) id = Some (label c)).
    { rewrite A, nth_error_app1.
      - now apply map_nth_error.
      - rewrite length_map. apply nth_error_Some. congruence. }
    rewrite nth_error_map in M.
    destruct (nth_error (heap e') id) as [c'|]; [|discriminate].
    exists c'. split; auto. cbn in M. inversion M. reflexivity. }
  destruct (@import_line_groups n l e e' L) as [G|[id [c [N G]]]];
    intros k ids y H1 H2; rewrite G in H1.
  - destruct (K k ids y H1 H2) as [c [N Hc]].
    destruct (Keep y c N) as [c' [N' Hc']]. exists c'. split; congruence.
  - destruct (@dict_append_member _ k id y ids _ H1 H2) as [[ids0 [B C]]|[-> ->]].
    + destruct (K k ids0 y B C) as [c0 [N0 Hc]].
      destruct (Keep y c0 N0) as [c' [N' Hc']]. exists c'. split; congruence.
    + exists c. auto.
Qed.

Lemma keyed_loop (lines : list str) (n : nat) (e e' : env) :
  keyed e -> import_loop n lines e = Ok e' -> keyed e'.
Proof.
  revert n e. induction lines as [|l t IH]; intros n e K; cbn [import_loop].
  - intros E. now inversion E; subst.
  - destruct (import_line n l e) as [e1|] eqn:L; cbn [bind]; [|discriminate].
    apply IH. exact (@keyed_line n l e e1 K L).
Qed.

Lemma parsed_headers_in (lines : list str) (h : str * str * str) :
  In h (parsed_headers lines) -> exists l, In l lines /\ match_concept l = Some h.
Proof.
  induction lines as [|l t IH]; cbn [parsed_headers]; [intros []|].
  destruct (match_concept l) as [h'|] eqn:M.
  - intros [<-|H].
    + exists l. split; [now left|exact M].
    + destruct (IH H) as [l' [A B]]. exists l'. split; [now right|exact B].
  - intros H. destruct (IH H) as [l' [A B]]. exists l'. split; [now right|exact B].
Qed.

Lemma str_eqb_refl (a : str) : str_eqb a a = true.
Proof. induction a as [|x a IH]; simpl; auto. now rewrite Ascii.eqb_refl. Qed.

(** the key "Proper Nouns" is that of the nouns with a capital, and of
    nothing else *)
Lemma group_key_proper (cat w : str) :
  Forall (fun x => is_letter x = true) cat ->
  (group_key cat w = lit "Proper Nouns" <-> cat = lit "Noun" /\ starts_upper w)
  /\ (group_key cat w = lit "Nouns" <-> cat = lit "Noun" /\ ~ starts_upper w).
Proof.
  intros Hc. unfold group_key, starts_upper.
  destruct (str_eqb cat (lit "Noun")) eqn:E.
  - apply str_eqb_eq in E. subst cat. cbn [andb].
    destruct w as [|c w].
    + split; split.
      * discriminate.
      * intros [_ []].
      * intros _. split; [reflexivity|]. intros [].
      * reflexivity.
    + destruct (isupper c); split; split.
      * intros _. split; reflexivity.
      * reflexivity.
      * discriminate.
      * intros [_ H]. exfalso. now apply H.
      * discriminate.
      * intros [_ H]. discriminate.
      * intros _. split; [reflexivity|]. discriminate.
      * reflexivity.
  - cbn [andb].
    assert (N : cat <> lit "Noun").
    { intros ->. rewrite str_eqb_refl in E. discriminate. }
    split; split.
    + intros H. exfalso.
      change (lit "Proper Nouns") with (lit "Proper Noun" ++ lit "s") in H.
      apply app_inv_tail in H. subst cat.
      rewrite Forall_forall in Hc. specialize (Hc " "%char).
      assert (I : In " "%char (lit "Proper Noun")) by (vm_compute; tauto).
      apply Hc in I. discriminate.
    + intros [H _]. contradiction.
    + intros H. exfalso.
      change (lit "Nouns") with (lit "Noun" ++ lit "s") in H.
      apply app_inv_tail in H. contradiction.
    + intros [H _]. contradiction.
Qed.

(** X6: every reference of a group list is to a record under that group's
    key, made from a header that parsed; and the group "Proper Nouns" holds
    the concepts of category Noun whose lemma starts with an upper-case
    letter, the group "Nouns" those whose lemma does not, and neither holds
    anything else. *)
Theorem groups_hold_their_own (lines : list str) (e : env) (k : str)
    (ids : list nat) (id : nat) :
  import_concepts lines = Ok e ->
  In (k, ids) (groups e) -> In id ids ->
  exists c cat,
    nth_error (heap e) id = Some c
    /\ group c = k
    /\ In (cat, word c, gloss c) (parsed_headers lines)
    /\ k = group_key cat (word c)
    /\ (k = lit "Proper Nouns" <-> cat = lit "Noun" /\ starts_upper (word c))
    /\ (k = lit "Nouns" <-> cat = lit "Noun" /\ ~ starts_upper (word c)).
Proof.
  intros R H1 H2. pose proof (proj1 (@heap_labels lines e R)) as Rec.
  revert R. unfold import_concepts.
  destruct (import_loop 0 lines init) as [e1|] eqn:L; cbn [bind]; [|discriminate].
  intros E. inversion E; subst e. clear E. cbn [report heap groups] in *.
  assert (K : keyed e1).
  { apply (@keyed_loop lines 0 init e1); auto. intros ? ? ? []. }
  destruct (K k ids id H1 H2) as [c [N Hc]].
  assert (M : nth_error (map header_label (parsed_headers lines)) id
              = Some (label c)).
  { rewrite <- Rec. now apply map_nth_error. }
  rewrite nth_error_map in M.
  destruct (nth_error (parsed_headers lines) id) as [[[cat w] gl]|] eqn:P;
    [|discriminate].
  cbn in M. inversion M as [[Hg Hw Hgl]].
  apply nth_error_In in P. rewrite Hw, Hgl in P.
  exists c, cat. split; [exact N|]. split; [exact Hc|]. split; [exact P|].
  assert (Hk : k = group_key cat (word c)) by congruence.
  split; [exact Hk|].
  destruct (parsed_headers_in lines _ P) as [l [_ Ml]].
  destruct (@header_parts l cat (word c) (gloss c) Ml)
    as [stem [tag [g [eol [_ [_ [_ [Lc _]]]]]]]].
  rewrite Hk. now apply group_key_proper.
Qed.

Lemma groups_hold_their_own_witness :
  exists c cat,
    nth_error [mkConcept (lit "Proper Nouns") (lit "Zion-A") []
                         (lit "Mark 1:1 They went up to Zion.") []] 0 = Some c
    /\ group c = lit "Proper Nouns"
    /\ In (cat, word c, gloss c)
          (parsed_headers [lit "Concept (Noun): Zion-A" ++ nl;
                           lit "Verse: Mark 1:1 They went up to Zion." ++ nl])
    /\ lit "Proper Nouns" = group_key cat (word c)
    /\ (lit "Proper Nouns" = lit "Proper Nouns"
        <-> cat = lit "Noun" /\ starts_upper (word c))
    /\ (lit "Proper Nouns" = lit "Nouns"
        <-> cat = lit "Noun" /\ ~ starts_upper (word c)).
Proof.
  apply (@groups_hold_their_own
           [lit "Concept (Noun): Zion-A" ++ nl;
            lit "Verse: Mark 1:1 They went up to Zion." ++ nl]
           (mkEnv [mkConcept (lit "Proper Nouns") (lit "Zion-A") []
                             (lit "Mark 1:1 They went up to Zion.") []]
                  (Some 0) [(lit "Proper Nouns", [0])] None
                  [Retrieved 1 (lit "Proper Nouns")])
           (lit "Proper Nouns") [0] 0).
  - vm_compute. reflexivity.
  - left. reflexivity.
  - left. reflexivity.
Defined.

(** ** The reference, the text and the base form *)

Lemma index_from_0_some (c : ascii) (s : str) (i : nat) :
  index_from c s 0 = Some i ->
  exists a b, s = a ++ c :: b /\ length a = i /\ ~ In c a.
Proof.
  revert i. induction s as [|x s IH]; intros i; cbn [index_from]; [discriminate|].
  destruct (Ascii.eqb x c) eqn:E.
  - intros H. inversion H; subst. apply Ascii.eqb_eq in E. subst x.
    exists [], s. repeat split. intros [].
  - destruct (index_from c s 0) as [j|]; [|discriminate].
    cbn [option_map]. intros H. inversion H; subst.
    destruct (IH j eq_refl) as [a [b [-> [L N]]]].
    exists (x :: a), b. repeat split; [cbn [length]; congruence|].
    intros [->|I]; [|contradiction]. rewrite Ascii.eqb_refl in E. discriminate.
Qed.

Lemma index_from_0_none (c : ascii) (s : str) :
  index_from c s 0 = None -> ~ In c s.
Proof.
  induction s as [|x s IH]; cbn [index_from]; [intros _ []|].
  destruct (Ascii.eqb x c) eqn:E; [discriminate|].
  destruct (index_from c s 0); [discriminate|].
  intros _ [->|I]; [|now apply IH].
  rewrite Ascii.eqb_refl in E. discriminate.
Qed.

Lemma index_from_skipn (c : ascii) (s : str) (n : nat) :
  index_from c s n = option_map (Nat.add n) (index_from c (skipn n s) 0).
Proof.
  revert s. induction n as [|n IH]; intros s.
  - cbn [skipn]. destruct (index_from c s 0); reflexivity.
  - destruct s as [|x s]; [reflexivity|].
    cbn [index_from skipn]. rewrite IH.
    destruct (index_from c (skipn n s) 0); reflexivity.
Qed.

Lemma first_occurrence_unique (c : ascii) (a a' b b' : str) :
  a ++ c :: b = a' ++ c :: b' -> ~ In c a -> ~ In c a' -> a = a' /\ b = b'.
Proof.
  revert a'. induction a as [|x a IH]; intros [|y a']; cbn [app]; intros E N N'.
  - inversion E. auto.
  - inversion E; subst. exfalso. apply N'. now left.
  - inversion E; subst. exfalso. apply N. now left.
  - inversion E; subst.
    destruct (IH a' H1) as [-> ->]; auto.
    + intros I. apply N. now right.
    + intros I. apply N'. now right.
Qed.

Lemma rindex_some (c : ascii) (s : str) (i : nat) :
  rindex c s = Some i ->
  exists a b, s = a ++ c :: b /\ length a = i /\ ~ In c b.
Proof.
  revert i. induction s as [|x s IH]; intros i; cbn [rindex]; [discriminate|].
  destruct (rindex c s) as [j|] eqn:R.
  - intros H. inversion H; subst.
    destruct (IH j eq_refl) as [a [b [-> [L N]]]].
    exists (x :: a), b. repeat split; auto. cbn [length]. congruence.
  - destruct (Ascii.eqb x c) eqn:E; [|discriminate].
    intros H. inversion H; subst. apply Ascii.eqb_eq in E. subst x.
    exists [], s. repeat split.
    clear IH. induction s as [|y s IH]; [intros []|].
    cbn [rindex] in R. destruct (rindex c s); [discriminate|].
    destruct (Ascii.eqb y c) eqn:E; [discriminate|].
    intros [->|I]; [|now apply IH].
    rewrite Ascii.eqb_refl in E. discriminate.
Qed.

Lemma rindex_none (c : ascii) (s : str) : rindex c s = None -> ~ In c s.
Proof.
  induction s as [|x s IH]; cbn [rindex]; [intros _ []|].
  destruct (rindex c s); [discriminate|].
  destruct (Ascii.eqb x c) eqn:E; [discriminate|].
  intros _ [->|I]; [|now apply IH].
  rewrite Ascii.eqb_refl in E. discriminate.
Qed.

Lemma split_verse_cases (v : str) :
  match split_verse v with
  | Ok (ref, verse_text) =>
      v = ref ++ " "%char :: verse_text
      /\ exists a b, ref = a ++ ":"%char :: b
                     /\ ~ In ":"%char a /\ ~ In " "%char b
  | Raise x =>
      x = ValueError
      /\ forall a b, v = a ++ ":"%char :: b -> ~ In ":"%char a -> ~ In " "%char b
  end.
Proof.
  unfold split_verse.
  destruct (index_from ":" v 0) as [ci|] eqn:C; cbn [or_raise bind].
  - destruct (index_from_0_some _ _ C) as [a [b [E [L N]]]].
    rewrite index_from_skipn.
    assert (Sk : skipn ci v = ":"%char :: b).
    { rewrite E, <- L, skipn_app, Nat.sub_diag, skipn_all. reflexivity. }
    rewrite Sk. cbn [index_from]. change (Ascii.eqb ":" " ") with false. cbv iota.
    destruct (index_from " " b 0) as [k|] eqn:B; cbn [option_map or_raise bind].
    + destruct (index_from_0_some _ _ B) as [b1 [b2 [E2 [L2 N2]]]].
      assert (V : v = (a ++ ":"%char :: b1) ++ " "%char :: b2).
      { rewrite E, E2, <- app_assoc. reflexivity. }
      assert (Len : ci + S k = length (a ++ ":"%char :: b1)).
      { rewrite length_app. cbn [length]. lia. }
      assert (F : firstn (ci + S k) v = a ++ ":"%char :: b1).
      { rewrite Len, V, firstn_app, Nat.sub_diag, firstn_all, app_nil_r.
        reflexivity. }
      assert (T : skipn (S (ci + S k)) v = b2).
      { rewrite Len, V.
        change (S (length (a ++ ":"%char :: b1)))
          with (1 + length (a ++ ":"%char :: b1)).
        rewrite <- skipn_skipn, skipn_app, Nat.sub_diag, skipn_all.
        reflexivity. }
      rewrite F, T.
      split; [exact V|]. exists a, b1. auto.
    + split; [reflexivity|]. intros a' b' E' N'.
      rewrite E in E'.
      destruct (first_occurrence_unique _ _ _ _ _ E' N N') as [_ <-].
      now apply index_from_0_none.
  - split; [reflexivity|]. intros a b E _. exfalso.
    apply (index_from_0_none _ _ C). rewrite E. apply in_or_app. right. now left.
Qed.

Lemma base_form_cases (w : str) :
  match base_form w with
  | Ok base => exists sense, w = base ++ "-"%char :: sense /\ ~ In "-"%char sense
  | Raise x => x = ValueError /\ ~ In "-"%char w
  end.
Proof.
  unfold base_form. destruct (rindex "-" w) as [i|] eqn:R; cbn [or_raise bind].
  - destruct (rindex_some _ _ R) as [a [b [-> [L N]]]].
    exists b. rewrite <- L, firstn_app, Nat.sub_diag, firstn_all, app_nil_r.
    auto.
  - split; [reflexivity|]. now apply rindex_none.
Qed.

(** X7: a verse is cut at the first space after its first colon: the
    reference and the text put together again with that space give the
    verse, the reference holds the first colon and no space after it; and
    [ValueError] is raised exactly when the verse has no colon or no space
    after its first colon. *)
Theorem split_verse_spec (v : str) :
  match split_verse v with
  | Ok (ref, verse_text) =>
      v = ref ++ " "%char :: verse_text
      /\ exists a b, ref = a ++ ":"%char :: b
                     /\ ~ In ":"%char a /\ ~ In " "%char b
  | Raise x =>
      x = ValueError
      /\ forall a b, v = a ++ ":"%char :: b -> ~ In ":"%char a -> ~ In " "%char b
  end.
Proof. exact (split_verse_cases v). Qed.

(** X8: the base form is the lemma up to its last hyphen, what follows it
    (the sense) holds no hyphen; [ValueError] is raised exactly when the
    lemma has no hyphen. *)
Theorem base_form_spec (w : str) :
  match base_form w with
  | Ok base => exists sense, w = base ++ "-"%char :: sense /\ ~ In "-"%char sense
  | Raise x => x = ValueError /\ ~ In "-"%char w
  end.
Proof. exact (base_form_cases w). Qed.

(** ** The first occurrence in a sentence *)






(** ** The paragraph of a verse *)

Lemma visit_fold (w : str) (l : list str) (p : list Run) (f : bool) :
  fold_left (visit w) l (p, f)
  = (p ++ flat_map (piece w) l, f || existsb (found_in w) l).
Proof.
  revert p f. induction l as [|t l IH]; intros p f; cbn [fold_left flat_map existsb].
  - now rewrite app_nil_r, orb_false_r.
  - unfold visit at 2, piece at 1, found_in at 1.
    destruct (find_word w t) as [[a b]|]; cbn [fst snd].
    + rewrite IH, <- app_assoc. cbn [orb]. now rewrite orb_true_r.
    + rewrite IH. reflexivity.
Qed.

Lemma firstn_plus (A : Type) (l : list A) (a n : nat) :
  firstn (a + n) l = firstn a l ++ firstn n (skipn a l).
Proof.
  revert l. induction a as [|a IH]; intros l; [reflexivity|].
  destruct l as [|x l]; cbn [Nat.add firstn skipn app].
  - now rewrite firstn_nil.
  - now rewrite IH.
Qed.

Lemma excerpt_text (base sentence : str) (start stop : nat) :
  find_word base sentence = Some (start, stop) ->
  run_texts (excerpt sentence start stop) = " "%char :: sentence.
Proof.
  intros H. destruct (find_word_sound _ _ H) as [x [_ [_ ->]]].
  unfold run_texts, excerpt, slice. cbn [map concat text plain bold_run app].
  rewrite app_nil_r. f_equal.
  replace (start + length (base ++ x) - start) with (length (base ++ x)) by lia.
  rewrite app_assoc, <- firstn_plus. apply firstn_skipn.
Qed.

Lemma run_texts_app (p q : list Run) : run_texts (p ++ q) = run_texts p ++ run_texts q.
Proof. unfold run_texts. now rewrite map_app, concat_app. Qed.

Lemma run_texts_size (n : nat) (p : list Run) :
  run_texts (map (set_size n) p) = run_texts p.
Proof.
  unfold run_texts. rewrite map_map. reflexivity.
Qed.

Lemma piece_hit (base t : str) (a b : nat) :
  find_word base t = Some (a, b) ->
  piece base t = excerpt t a b /\ found_in base t = true.
Proof. intros H. unfold piece, found_in. now rewrite H. Qed.

Lemma piece_miss (base t : str) :
  find_word base t = None -> piece base t = [] /\ found_in base t = false.
Proof. intros H. unfold piece, found_in. now rewrite H. Qed.

Lemma pieces_text (base : str) (l : list str) :
  run_texts (flat_map (piece base) l)
  = concat (map (cons " "%char) (filter (found_in base) l)).
Proof.
  induction l as [|t l IH]; cbn [flat_map filter]; [reflexivity|].
  rewrite run_texts_app, IH.
  destruct (find_word base t) as [[a b]|] eqn:F.
  - destruct (piece_hit _ _ F) as [-> ->]. now rewrite (excerpt_text _ _ F).
  - destruct (piece_miss _ _ F) as [-> ->]. reflexivity.
Qed.

Lemma pieces_bold (base : str) (l : list str) :
  length (filter bold (flat_map (piece base) l))
  = length (filter (found_in base) l)
  /\ length (flat_map (piece base) l) = 3 * length (filter (found_in base) l)
  /\ Forall (fun r => highlight r = false) (flat_map (piece base) l).
Proof.
  induction l as [|t l [IH1 [IH2 IH3]]]; cbn [flat_map filter];
    [repeat split; constructor|].
  rewrite filter_app, !length_app, IH1, IH2.
  destruct (find_word base t) as [[a b]|] eqn:F.
  - destruct (piece_hit _ _ F) as [-> ->].
    cbn [excerpt filter bold plain bold_run length app].
    repeat split; try lia. repeat constructor. exact IH3.
  - destruct (piece_miss _ _ F) as [-> ->].
    cbn [filter length app]. repeat split; try lia. exact IH3.
Qed.

Lemma existsb_filter (A : Type) (f : A -> bool) (l : list A) :
  existsb f l = match filter f l with [] => false | _ :: _ => true end.
Proof.
  induction l as [|x l IH]; cbn [existsb filter]; [reflexivity|].
  destruct (f x); [reflexivity|exact IH].
Qed.

Lemma filter_bold_size (n : nat) (p : list Run) :
  filter bold (map (set_size n) p) = map (set_size n) (filter bold p).
Proof.
  induction p as [|r p IH]; cbn [map filter]; [reflexivity|].
  cbn [set_size bold]. destruct (bold r); cbn [map]; now rewrite IH.
Qed.

Lemma sized (n : nat) (p : list Run) :
  Forall (fun r => size r = Some n) (map (set_size n) p).
Proof. induction p; cbn [map]; constructor; auto. Qed.

Lemma unhighlighted_size (n : nat) (p : list Run) :
  Forall (fun r => highlight r = false) p ->
  Forall (fun r => highlight r = false) (map (set_size n) p).
Proof. induction 1; cbn [map]; constructor; auto. Qed.

(** X10: the paragraph that a verse cell ends with.  Every run has size 10.
    When no sentence of the verse text holds the word, it is the one
    highlighted run of the whole verse; otherwise it spells the reference
    followed by each sentence that holds the word, in order and each after
    one space, with nothing of a sentence lost: three runs a sentence, one
    of them bold, none highlighted. *)
Theorem paragraph_spells (c : UnlinkedConcept) (p : list Run) :
  add_verse_sentences c = Ok p ->
  exists base ref verse_text,
    base_form (word c) = Ok base
    /\ split_verse (verse c) = Ok (ref, verse_text)
    /\ Forall (fun r => size r = Some 10) p
    /\ let hits := filter (found_in base) (sentences verse_text) in
       match hits with
       | [] => p = [mkRun (verse c) false true (Some 10)]
       | _ :: _ =>
           run_texts p = ref ++ concat (map (cons " "%char) hits)
           /\ length (filter bold p) = length hits
           /\ length p = 1 + 3 * length hits
           /\ Forall (fun r => highlight r = false) p
       end.
Proof.
  unfold add_verse_sentences.
  destruct (base_form (word c)) as [base|] eqn:B; cbn [bind]; [|discriminate].
  destruct (split_verse (verse c)) as [[ref vt]|] eqn:V; cbn [bind]; [|discriminate].
  cbn [fst snd]. rewrite visit_fold. cbn [fst snd orb].
  rewrite existsb_filter. intros H.
  exists base, ref, vt. split; [reflexivity|]. split; [reflexivity|].
  destruct (pieces_bold base (sentences vt)) as [P1 [P2 P3]].
  pose proof (pieces_text base (sentences vt)) as P4.
  assert (Inj : forall a b : list Run, Ok a = Ok b -> a = b)
    by (intros a b Q; now inversion Q).
  cbv zeta. destruct (filter (found_in base) (sentences vt)) as [|h hs] eqn:F;
    apply Inj in H; subst p.
  - split; [repeat constructor|reflexivity].
  - split; [apply sized|].
    split.
    { rewrite run_texts_size. change (plain ref :: flat_map (piece base) (sentences vt))
        with ([plain ref] ++ flat_map (piece base) (sentences vt)).
      rewrite run_texts_app, P4. unfold run_texts. cbn [map concat text plain].
      now rewrite app_nil_r. }
    split.
    { rewrite filter_bold_size, length_map. cbn [app filter plain bold].
      exact P1. }
    split.
    { rewrite length_map. cbn [app length]. rewrite P2. reflexivity. }
    apply unhighlighted_size. cbn [app]. constructor; [reflexivity|exact P3].
Qed.

Lemma paragraph_spells_witness :
  exists base ref verse_text,
    base_form (word mark_walk) = Ok base
    /\ split_verse (verse mark_walk) = Ok (ref, verse_text)
    /\ Forall (fun r => size r = Some 10)
              (map (set_size 10)
                   [plain (lit "Mark 1:16"); plain (lit " He ");
                    bold_run (lit "walked"); plain (lit " to the market.")])
    /\ let hits := filter (found_in base) (sentences verse_text) in
       match hits with
       | [] => map (set_size 10)
                   [plain (lit "Mark 1:16"); plain (lit " He ");
                    bold_run (lit "walked"); plain (lit " to the market.")]
               = [mkRun (verse mark_walk) false true (Some 10)]
       | _ :: _ =>
           run_texts (map (set_size 10)
                          [plain (lit "Mark 1:16"); plain (lit " He ");
                           bold_run (lit "walked"); plain (lit " to the market.")])
           = ref ++ concat (map (cons " "%char) hits)
           /\ length (filter bold
                        (map (set_size 10)
                             [plain (lit "Mark 1:16"); plain (lit " He ");
                              bold_run (lit "walked");
                              plain (lit " to the market.")]))
              = length hits
           /\ length (map (set_size 10)
                          [plain (lit "Mark 1:16"); plain (lit " He ");
                           bold_run (lit "walked"); plain (lit " to the market.")])
              = 1 + 3 * length hits
           /\ Forall (fun r => highlight r = false)
                     (map (set_size 10)
                          [plain (lit "Mark 1:16"); plain (lit " He ");
                           bold_run (lit "walked"); plain (lit " to the market.")])
       end.
Proof.
  apply (@paragraph_spells mark_walk).
  vm_compute. reflexivity.
Defined.



(** ** The sentences of a verse text, in place *)

Lemma sentence_len_shape (t : str) (n : nat) :
  sentence_len t = Some n -> unit_ok (firstn n t).
Proof.
  unfold sentence_len.
  destruct (count_run non_terminal t) as [|a] eqn:A; [discriminate|].
  destruct (skipn (S a) t) as [|c t2] eqn:E; [discriminate|].
  intros H. inversion H; subst n. clear H.
  destruct (count_run_split non_terminal t) as [S1 S2]. rewrite A in S1, S2.
  destruct (count_run_split non_space t2) as [S3 S4].
  exists (firstn (S a) t), c, (firstn (count_run non_space t2) t2).
  split; [|split; [|split; [|split]]]; auto.
  - match goal with
    | |- firstn ?m t = _ =>
        replace m with (S a + (1 + count_run non_space t2)) by lia
    end.
    rewrite firstn_plus, E. reflexivity.
  - destruct t; [discriminate|]. discriminate.
  - assert (N : nth_error t (count_run non_terminal t) = Some c).
    { rewrite A. now apply (@skipn_cons_nth t (S a) c t2). }
    apply count_run_stop in N. unfold non_terminal in N.
    now destruct (is_terminal c).
Qed.

Lemma next_sentence_gap (t : str) (j n : nat) :
  next_sentence t = Some (j, n) ->
  Forall (fun x => is_terminal x = true) (firstn j t).
Proof.
  revert j. induction t as [|x t IH]; intros j; cbn [next_sentence].
  - destruct (sentence_len []); [|discriminate].
    intros H. inversion H. constructor.
  - destruct (sentence_len (x :: t)) eqn:E.
    + intros H. inversion H. constructor.
    + destruct (next_sentence t) as [[j' n']|] eqn:N; [|discriminate].
      intros H. inversion H; subst. cbn [firstn].
      constructor; [|now apply IH].
      destruct (is_terminal x) eqn:T; [reflexivity|]. exfalso.
      revert E. unfold sentence_len. cbn [count_run]. unfold non_terminal at 1.
      rewrite T. cbn [negb].
      destruct (skipn (S (count_run non_terminal t)) (x :: t)) as [|c t2] eqn:K;
        [|discriminate].
      intros _. cbn [skipn] in K.
      assert (L : count_run non_terminal t = length t).
      { pose proof (count_run_le non_terminal t).
        assert (length (skipn (count_run non_terminal t) t) = 0) by now rewrite K.
        rewrite length_skipn in H1. lia. }
      destruct (count_run_split non_terminal t) as [_ F].
      rewrite L, firstn_all in F.
      rewrite (next_sentence_free F) in N. discriminate.
Qed.

Lemma skip_space_split (t : str) (e : nat) :
  exists sp, skipn e t = sp ++ skipn (skip_space t e) t
             /\ (sp = [] \/ sp = [" "%char]).
Proof.
  unfold skip_space. destruct (nth_error t e) as [c|] eqn:N.
  - destruct (Ascii.eqb c " ") eqn:C.
    + apply Ascii.eqb_eq in C. subst c. exists [" "%char]. split; [|now right].
      apply nth_error_split in N. destruct N as [l1 [l2 [-> <-]]].
      rewrite skipn_app, Nat.sub_diag, skipn_all.
      change (S (length l1)) with (1 + length l1).
      rewrite <- skipn_skipn, skipn_app, Nat.sub_diag, skipn_all. reflexivity.
    + exists []. auto.
  - exists []. auto.
Qed.

Lemma units_weave (fuel : nat) (t sp : str) :
  sp = [] \/ sp = [" "%char] ->
  exists gaps rest,
    length gaps = length (units fuel t)
    /\ sp ++ t = weave gaps (units fuel t) ++ rest
    /\ Forall gap_ok gaps
    /\ Forall unit_ok (units fuel t).
Proof.
  revert t sp. induction fuel as [|f IH]; intros t sp Hsp; cbn [units].
  - exists [], (sp ++ t). repeat split; constructor.
  - destruct (next_sentence t) as [[j n]|] eqn:N.
    + destruct (next_sentence_here _ N) as [L B].
      destruct (skip_space_split t (j + n)) as [sp' [E' Hsp']].
      destruct (IH (skipn (skip_space t (j + n)) t) sp' Hsp')
        as [gaps [rest [G1 [G2 [G3 G4]]]]].
      exists ((sp ++ firstn j t) :: gaps), rest.
      split; [cbn [length]; congruence|].
      split; [|split].
      * cbn [weave]. rewrite <- !app_assoc. f_equal.
        rewrite <- G2, <- E'.
        rewrite <- (firstn_skipn j t) at 1. f_equal.
        rewrite <- (firstn_skipn n (skipn j t)) at 1. f_equal.
        rewrite skipn_skipn. f_equal. lia.
      * constructor; [|exact G3].
        exists sp, (firstn j t). split; [reflexivity|]. split; [exact Hsp|].
        exact (next_sentence_gap _ N).
      * constructor; [|exact G4]. now apply sentence_len_shape.
    + exists [], (sp ++ t). repeat split; constructor.
Qed.

(** X12: the sentences that the pattern finds are pieces of the verse text,
    in order and without overlap.  Each is made of characters other than
    . ? !, then one of these three, then characters that are no white
    space; what stands before each of them and after the one before is at
    most one space followed by characters among . ? ! *)
Theorem sentences_in_place (verse_text : str) :
  exists gaps rest,
    length gaps = length (sentences verse_text)
    /\ verse_text = weave gaps (sentences verse_text) ++ rest
    /\ Forall gap_ok gaps
    /\ Forall unit_ok (sentences verse_text).
Proof.
  rewrite sentences_units.
  destruct (@units_weave (S (length verse_text)) verse_text [] (or_introl eq_refl))
    as [gaps [rest H]].
  exists gaps, rest. exact H.
Qed.

(** ** How the parser fails *)








(** ** The tables of the document *)

Lemma create_tables_shape (names : list str)
    (gs : list (str * list UnlinkedConcept)) (idx : nat) (notes : bool)
    (ts : list Table) :
  create_tables names gs idx notes = Ok ts ->
  map number ts = seq idx (length ts)
  /\ map caption ts = filter (has_key gs) names
  /\ Forall (fun t => headers t = table_headers (caption t) notes) ts.
Proof.
  revert idx ts. induction names as [|k names IH]; intros idx ts;
    cbn [create_tables filter].
  - intros H. inversion H. repeat split. constructor.
  - unfold create_table at 1, has_key at 1.
    destruct (lookup k gs) as [l|]; cbn [bind fst snd].
    + destruct (table_rows (sorted_by_word l)) as [rs|]; cbn [bind fst snd];
        [|discriminate].
      destruct (create_tables names gs (S idx) notes) as [ts'|] eqn:E;
        cbn [bind]; [|discriminate].
      intros H. inversion H; subst ts. clear H.
      destruct (IH (S idx) ts' E) as [A [B C]].
      cbn [map length seq number caption]. rewrite A, B.
      repeat split. constructor; [reflexivity|exact C].
    + destruct (create_tables names gs idx notes) as [ts'|] eqn:E;
        cbn [bind]; [|discriminate].
      intros H. inversion H; subst ts. exact (IH idx ts' E).
Qed.

Lemma table_names_plain :
  Forall (fun k => display k = k /\ str_eqb k (lit "Proper Names") = false)
         table_names.
Proof. repeat constructor. Qed.

Lemma map_display_filter (f : str -> bool) (l : list str) :
  Forall (fun k => display k = k /\ str_eqb k (lit "Proper Names") = false) l ->
  map display (filter f l) = filter f l
  /\ Forall (fun k => str_eqb k (lit "Proper Names") = false) (filter f l).
Proof.
  induction 1 as [|k l [D P] _ [IH1 IH2]]; cbn [filter map]; [split; constructor|].
  destruct (f k); cbn [map]; [|auto].
  rewrite D, IH1. split; [reflexivity|]. constructor; auto.
Qed.

(** X14: the tables of a document are numbered 1, 2, ... without a gap, in
    the fixed order Proper Names, Nouns, Verbs, Adjectives, Adverbs,
    Adpositions, Conjunctions, Particles; there is one table for each of
    these groups that the input has, and none for any other group.  The
    Proper Names table has three header cells, the others six, or seven
    with the Notes column; the title is the passage, which is not empty. *)
Theorem tables_numbered (e : env) (notes : bool) (title : str) (ts : list Table) :
  export_document e notes = Ok (title, ts) ->
  passage e = Some title /\ title <> []
  /\ map number ts = seq 1 (length ts)
  /\ map caption ts = map display (filter (has_key (resolve e)) exported_keys)
  /\ Forall (fun t => length (headers t) = columns notes t) ts.
Proof.
  unfold export_document.
  destruct (passage e) as [t|]; cbn [or_raise bind]; [|discriminate].
  destruct t as [|c t]; cbn [bind]; [discriminate|].
  destruct (create_tables table_names (resolve e)
              (snd (create_names_tables (resolve e))) notes) as [ts'|] eqn:E;
    cbn [bind]; [|discriminate].
  intros H. inversion H; subst. clear H.
  split; [reflexivity|]. split; [discriminate|].
  destruct (create_tables_shape _ _ _ _ E) as [A [B C]].
  destruct (map_display_filter (has_key (resolve e)) table_names_plain) as [D P].
  assert (Cols : Forall (fun t => length (headers t) = columns notes t) ts').
  { rewrite <- B in P. clear - C P. induction C as [|t ts' Ht _ IH];
      [constructor|].
    cbn [map] in P. constructor; [|apply IH; now inversion P].
    unfold columns. rewrite Ht.
    replace (str_eqb (caption t) (lit "Proper Names")) with false
      by (symmetry; now inversion P).
    unfold table_headers, add_table_headers. rewrite length_app.
    destruct notes; reflexivity. }
  unfold exported_keys. cbn [filter].
  assert (K : has_key (resolve e) (lit "Proper Nouns")
              = match lookup (lit "Proper Nouns") (resolve e) with
                | Some _ => true
                | None => false
                end) by reflexivity.
  rewrite K. clear K. revert A. unfold create_names_tables.
  destruct (lookup (lit "Proper Nouns") (resolve e)) as [l|]; cbn [fst snd];
    intros A.
  - cbn [map length seq number caption]. rewrite A, B, D.
    repeat split. constructor; [reflexivity|exact Cols].
  - rewrite A, B, D. repeat split. exact Cols.
Qed.

Lemma tables_numbered_witness :
  exists e title ts,
    import_concepts names_input = Ok e
    /\ export_document e true = Ok (title, ts)
    /\ passage e = Some title /\ title <> []
    /\ map number ts = seq 1 (length ts)
    /\ map caption ts = map display (filter (has_key (resolve e)) exported_keys)
    /\ Forall (fun t => length (headers t) = columns true t) ts.
Proof.
  eexists. eexists. eexists.
  split; [vm_compute; reflexivity|].
  split; [vm_compute; reflexivity|].
  apply tables_numbered. vm_compute. reflexivity.
Defined.

Lemma sorted_words (l : list UnlinkedConcept) :
  Sorted word_le l -> Sorted str_le (map word l).
Proof.
  induction 1 as [|c l _ IH H]; cbn [map]; constructor; auto.
  destruct H; cbn [map]; constructor; auto.
Qed.

Lemma create_tables_rows (names : list str)
    (gs : list (str * list UnlinkedConcept)) (idx : nat) (notes : bool)
    (ts : list Table) (t : Table) :
  create_tables names gs idx notes = Ok ts -> In t ts ->
  exists k l, In k names /\ lookup k gs = Some l /\ caption t = k
              /\ length (rows t) = length l
              /\ Sorted str_le (words_of t).
Proof.
  revert idx ts. induction names as [|k names IH]; intros idx ts;
    cbn [create_tables].
  - intros H. inversion H. intros [].
  - unfold create_table at 1.
    destruct (lookup k gs) as [l|] eqn:Lk; cbn [bind fst snd].
    + destruct (table_rows (sorted_by_word l)) as [rs|] eqn:R; cbn [bind fst snd];
        [|discriminate].
      destruct (create_tables names gs (S idx) notes) as [ts'|] eqn:E;
        cbn [bind]; [|discriminate].
      intros H. inversion H; subst ts. clear H. intros [<-|I].
      * exists k, l. split; [now left|]. split; [exact Lk|].
        split; [reflexivity|]. apply table_rows_words in R.
        destruct (sorted_by_word_spec l) as [S P].
        unfold words_of. cbn [rows]. split.
        -- rewrite <- (length_map cell_word), R, length_map.
           symmetry. now apply Permutation_length.
        -- rewrite R. now apply sorted_words.
      * destruct (IH (S idx) ts' E I) as [k' [l' [A B]]].
        exists k', l'. split; [now right|exact B].
    + destruct (create_tables names gs idx notes) as [ts'|] eqn:E;
        cbn [bind]; [|discriminate].
      intros H. inversion H; subst ts. intros I.
      destruct (IH idx ts' E I) as [k' [l' [A B]]].
      exists k', l'. split; [now right|exact B].
Qed.

Lemma export_tables (e : env) (notes : bool) (title : str) (ts : list Table)
    (t : Table) :
  export_document e notes = Ok (title, ts) -> In t ts ->
  exists k l, In k exported_keys /\ lookup k (resolve e) = Some l
              /\ caption t = display k
              /\ length (rows t) = length l
              /\ (k <> lit "Proper Nouns" -> Sorted str_le (words_of t))
              /\ (k = lit "Proper Nouns" -> words_of t = map word l).
Proof.
  unfold export_document.
  destruct (passage e) as [p|]; cbn [or_raise bind]; [|discriminate].
  destruct p as [|c p]; cbn [bind]; [discriminate|].
  destruct (create_tables table_names (resolve e)
              (snd (create_names_tables (resolve e))) notes) as [ts'|] eqn:E;
    cbn [bind]; [|discriminate].
  intros H. inversion H; subst. clear H.
  assert (Rest : In t ts' ->
                 exists k l, In k exported_keys /\ lookup k (resolve e) = Some l
                   /\ caption t = display k
                   /\ length (rows t) = length l
                   /\ (k <> lit "Proper Nouns" -> Sorted str_le (words_of t))
                   /\ (k = lit "Proper Nouns" -> words_of t = map word l)).
  { intros I. destruct (@create_tables_rows _ _ _ _ _ _ E I) as [k [l [A [B [C [D S]]]]]].
    exists k, l. split; [now right|]. split; [exact B|].
    pose proof table_names_plain as P. rewrite Forall_forall in P.
    destruct (P k A) as [Dk Nk]. split; [congruence|]. split; [exact D|].
    split; [auto|]. intros ->. exfalso. revert A. clear.
    unfold table_names. cbn [In]. intros H.
    repeat (destruct H as [H|H]; [discriminate|]). exact H. }
  unfold create_names_tables.
  destruct (lookup (lit "Proper Nouns") (resolve e)) as [l|] eqn:Lk; cbn [fst];
    [|exact Rest].
  intros [<-|I]; [|exact (Rest I)].
  exists (lit "Proper Nouns"), l. split; [now left|]. split; [exact Lk|].
  split; [reflexivity|]. cbn [rows words_of]. split; [now rewrite length_map|].
  split; [intros N; now destruct N|].
  intros _. unfold words_of. cbn [rows]. rewrite map_map. reflexivity.
Qed.

(** ** From the input to the tables *)

Lemma dict_append_filled (g : str) (x : nat) (d : list (str * list nat)) :
  filled d -> filled (dict_append g x d).
Proof.
  induction d as [|[k v] d IH]; intros F; cbn [dict_append].
  - intros k ids [E|[]]. inversion E. discriminate.
  - assert (Fd : filled d) by (intros k' ids' I; apply (F k' ids'); now right).
    destruct (str_eqb k g).
    + intros k' ids' [E|I].
      * inversion E. intros Q. apply app_eq_nil in Q. destruct Q. discriminate.
      * apply (F k' ids'). now right.
    + intros k' ids' [E|I].
      * apply (F k' ids'). now left.
      * exact (IH Fd k' ids' I).
Qed.

Lemma filled_loop (lines : list str) (n : nat) (e e' : env) :
  filled (groups e) -> import_loop n lines e = Ok e' -> filled (groups e').
Proof.
  revert n e. induction lines as [|l t IH]; intros n e F; cbn [import_loop].
  - intros E. now inversion E; subst.
  - destruct (import_line n l e) as [e1|] eqn:L; cbn [bind]; [|discriminate].
    apply IH. destruct (@import_line_groups n l e e1 L) as [->|[id [c [_ ->]]]];
      [exact F|now apply dict_append_filled].
Qed.

Lemma lookup_resolve (e : env) (k : str) (l : list UnlinkedConcept) :
  wf e -> lookup k (resolve e) = Some l ->
  exists ids, In (k, ids) (groups e) /\ length l = length ids
              /\ forall c, In c l -> exists id, In id ids
                                               /\ nth_error (heap e) id = Some c.
Proof.
  intros [_ W]. unfold resolve, in_groups in *. revert W.
  induction (groups e) as [|[k' ids] d IH]; intros W; cbn [map lookup fst snd];
    [discriminate|].
  destruct (str_eqb k' k) eqn:K.
  - apply str_eqb_eq in K. subst k'. intros H. inversion H; subst l. clear H.
    exists ids. split; [now left|].
    assert (V : forall id, In id ids -> id < length (heap e)).
    { intros id I. apply W. exists k, ids. split; [now left|exact I]. }
    clear - V. induction ids as [|id ids IH]; cbn [flat_map].
    + split; [reflexivity|intros c []].
    + assert (Hid : id < length (heap e)) by (apply V; now left).
      destruct (nth_error (heap e) id) as [c0|] eqn:N;
        [|apply nth_error_None in N; lia].
      destruct IH as [IH1 IH2]; [intros i I; apply V; now right|].
      cbn [app length]. split; [now rewrite IH1|].
      intros c [<-|I].
      * exists id. split; [now left|exact N].
      * destruct (IH2 c I) as [i [A B]]. exists i. split; [now right|exact B].
  - intros H. destruct IH as [ids' [A B]]; auto.
    + intros id [k0 [ids0 [I J]]]. apply W. exists k0, ids0.
      split; [now right|exact J].
    + exists ids'. split; [now right|exact B].
Qed.

(** X15: from the input file to the tables.  Each table of the document is
    that of a group of the run, and has as many rows as the group has
    entries, the number printed for the group, which is never 0: no table
    is empty.  The rows of every table but Proper Names are in the order
    of their lemmas. *)
Theorem tables_hold_groups (lines : list str) (e : env) (notes : bool)
    (title : str) (ts : list Table) (t : Table) :
  import_concepts lines = Ok e ->
  export_document e notes = Ok (title, ts) ->
  In t ts ->
  exists k ids,
    In (k, ids) (groups e) /\ In k exported_keys
    /\ caption t = display k
    /\ ids <> []
    /\ length (rows t) = length ids
    /\ In (Retrieved (length (rows t)) k) (printed e)
    /\ (k <> lit "Proper Nouns" -> Sorted str_le (words_of t)).
Proof.
  unfold import_concepts.
  destruct (import_loop 0 lines init) as [e1|] eqn:L; cbn [bind]; [|discriminate].
  intros E X I. inversion E; subst e. clear E.
  assert (W : wf e1) by exact (@import_loop_wf lines 0 init e1 wf_init L).
  assert (F : filled (groups e1)).
  { apply (@filled_loop lines 0 init e1); auto. intros ? ? []. }
  destruct (@export_tables _ _ _ _ _ X I) as [k [l [A [B [C [D [S _]]]]]]].
  change (resolve (report e1)) with (resolve e1) in B.
  destruct (@lookup_resolve _ _ _ W B) as [ids [G [Len _]]].
  exists k, ids. cbn [report groups printed].
  split; [exact G|]. split; [exact A|]. split; [exact C|].
  split; [exact (F k ids G)|]. split; [congruence|]. split; [|exact S].
  apply in_or_app. right. rewrite D, Len.
  change (Retrieved (length ids) k)
    with ((fun kv : str * list nat => Retrieved (length (snd kv)) (fst kv)) (k, ids)).
  now apply in_map.
Qed.

Lemma tables_hold_groups_witness :
  exists e title names nouns,
    import_concepts names_input = Ok e
    /\ export_document e false = Ok (title, [names; nouns])
    /\ exists k ids,
         In (k, ids) (groups e) /\ In k exported_keys
         /\ caption nouns = display k
         /\ ids <> []
         /\ length (rows nouns) = length ids
         /\ In (Retrieved (length (rows nouns)) k) (printed e)
         /\ (k <> lit "Proper Nouns" -> Sorted str_le (words_of nouns)).
Proof.
  eexists. eexists. eexists. eexists.
  split; [vm_compute; reflexivity|].
  split; [vm_compute; reflexivity|].
  eapply (@tables_hold_groups names_input _ false).
  - vm_compute. reflexivity.
  - vm_compute. reflexivity.
  - right. left. reflexivity.
Defined.

(** ** How the export fails *)





(** ** The whole run *)







(** ** The texts that the parser keeps *)

Lemma lstrip_split (s : str) :
  exists p, s = p ++ lstrip s /\ Forall (fun c => isspace c = true) p
            /\ match lstrip s with c :: _ => isspace c = false | [] => True end.
Proof.
  induction s as [|c s [p [E [F H]]]]; cbn [lstrip].
  - exists []. repeat split. constructor.
  - destruct (isspace c) eqn:C.
    + exists (c :: p). cbn [app]. split; [now f_equal|]. split; [|exact H].
      constructor; auto.
    + exists []. repeat split; auto.
Qed.

Lemma lstrip_last (a : str) (c : ascii) :
  isspace c = false -> lstrip (a ++ [c]) = lstrip a ++ [c].
Proof.
  intros C. induction a as [|x a IH]; cbn [app lstrip].
  - now rewrite C.
  - destruct (isspace x); [exact IH|reflexivity].
Qed.

Lemma rstrip_split (s : str) :
  exists q, s = rstrip s ++ q /\ Forall (fun c => isspace c = true) q
            /\ match rev (rstrip s) with
               | c :: _ => isspace c = false
               | [] => True
               end.
Proof.
  unfold rstrip. destruct (lstrip_split (rev s)) as [p [E [F H]]].
  exists (rev p). rewrite rev_involutive. split; [|split; [|exact H]].
  - rewrite <- rev_app_distr, <- E. now rewrite rev_involutive.
  - now apply Forall_rev.
Qed.

Lemma rstrip_head (s : str) (c : ascii) :
  isspace c = false -> exists t, rstrip (c :: s) = c :: t.
Proof.
  intros C. unfold rstrip. cbn [rev].
  rewrite (@lstrip_last (rev s) c C), rev_app_distr. cbn [rev app]. eauto.
Qed.

Lemma strip_spec (s : str) :
  exists p q, s = p ++ strip s ++ q
              /\ Forall (fun c => isspace c = true) p
              /\ Forall (fun c => isspace c = true) q
              /\ clean (strip s).
Proof.
  unfold strip. destruct (lstrip_split s) as [p [E [F H]]].
  destruct (rstrip_split (lstrip s)) as [q [E' [F' H']]].
  exists p, q. split; [now rewrite <- E'|]. split; [exact F|]. split; [exact F'|].
  split; [|exact H'].
  destruct (lstrip s) as [|c t]; [exact I|].
  destruct (@rstrip_head t c H) as [t' ->]. exact H.
Qed.

Lemma in_update (i : nat) (f : UnlinkedConcept -> UnlinkedConcept)
    (h : list UnlinkedConcept) (c : UnlinkedConcept) :
  In c (update i f h) -> In c h \/ exists c0, In c0 h /\ c = f c0.
Proof.
  revert i. induction h as [|d h IH]; intros [|i]; cbn [update]; try tauto.
  - intros [<-|I]; [right; exists d; split; [now left|reflexivity]|left; now right].
  - intros [<-|I]; [left; now left|].
    destruct (IH i I) as [J|[c0 [J E]]]; [left; now right|].
    right. exists c0. split; [now right|exact E].
Qed.

Lemma trimmed_line (n : nat) (l : str) (e e' : env) :
  import_line n l e = Ok e' ->
  (forall c, In c (heap e) -> clean (verse c) /\ clean (sample c)) ->
  (forall p, passage e = Some p -> clean p) ->
  (forall c, In c (heap e') -> clean (verse c) /\ clean (sample c))
  /\ (forall p, passage e' = Some p -> clean p).
Proof.
  intros L H P. revert L. unfold import_line.
  assert (Cs : forall s, clean (strip s)).
  { intros s. destruct (strip_spec s) as [p [q [_ [_ [_ C]]]]]. exact C. }
  destruct (startswith l (lit "Concept")).
  { destruct (match_concept l) as [[[cat w] gl]|]; intros E; inversion E; subst;
      cbn [heap passage]; split; auto.
    intros c I. apply in_app_or in I. destruct I as [I|[<-|[]]]; auto.
    cbn [new_concept verse sample]. repeat split. }
  destruct (startswith l (lit "Sample Sentence")).
  { destruct (concept e) as [id|]; [|discriminate].
    intros E; inversion E; subst; cbn [heap passage]; split; auto.
    intros c I. destruct (@in_update _ _ _ _ I) as [J|[c0 [J ->]]]; auto.
    cbn [set_sample verse sample]. split; [apply (H c0 J)|apply Cs]. }
  destruct (startswith l (lit "Verse")).
  { destruct (concept e) as [id|]; [|discriminate].
    destruct (nth_error _ id); [|discriminate].
    intros E; inversion E; subst; cbn [heap passage]; split; auto.
    intros c I. destruct (@in_update _ _ _ _ I) as [J|[c0 [J ->]]]; auto.
    cbn [set_verse verse sample]. split; [apply Cs|apply (H c0 J)]. }
  destruct (startswith l (lit "Current Passage")); intros E; inversion E; subst;
    cbn [heap passage]; split; auto.
  intros p Q. inversion Q. apply Cs.
Qed.

Lemma trimmed_loop (lines : list str) (n : nat) (e e' : env) :
  import_loop n lines e = Ok e' ->
  (forall c, In c (heap e) -> clean (verse c) /\ clean (sample c)) ->
  (forall p, passage e = Some p -> clean p) ->
  (forall c, In c (heap e') -> clean (verse c) /\ clean (sample c))
  /\ (forall p, passage e' = Some p -> clean p).
Proof.
  revert n e. induction lines as [|l t IH]; intros n e; cbn [import_loop].
  - intros E. inversion E; subst. auto.
  - destruct (import_line n l e) as [e1|] eqn:L; cbn [bind]; [|discriminate].
    intros R H P. destruct (@trimmed_line _ _ _ _ L H P) as [H1 P1].
    exact (IH (S n) e1 R H1 P1).
Qed.

(** X18: what the parser keeps is trimmed: the verse and the sample of
    every record, and the passage, have no white space at either end. *)
Theorem fields_trimmed (lines : list str) (e : env) :
  import_concepts lines = Ok e ->
  (forall c, In c (heap e) -> clean (verse c) /\ clean (sample c))
  /\ (forall p, passage e = Some p -> clean p).
Proof.
  unfold import_concepts.
  destruct (import_loop 0 lines init) as [e1|] eqn:L; cbn [bind]; [|discriminate].
  intros E. inversion E; subst e. cbn [report heap passage].
  apply (@trimmed_loop _ _ _ _ L); cbn [init heap passage].
  - intros c [].
  - discriminate.
Qed.

Lemma fields_trimmed_witness :
  exists e,
    import_concepts names_input = Ok e
    /\ (forall c, In c (heap e) -> clean (verse c) /\ clean (sample c))
    /\ (forall p, passage e = Some p -> clean p).
Proof.
  eexists. split; [vm_compute; reflexivity|].
  apply (@fields_trimmed names_input). vm_compute. reflexivity.
Defined.
